(** * Browser scripts of the archive site: theme controller, navbar loader,
      site lister.

    The three scripts (script.js, the stand-alone navbar loader, js/sites.js)
    are embedded as functions over an explicit browser state.  Synchronous
    code is a state transformer; every [await] / [.then] is a suspension
    point, and the environment (network, user) drives the page through
    events, one macrotask per event. *)

From stdpp Require Import base strings list gmap.

Open Scope string_scope.
Open Scope list_scope.

#[local] Set Warnings "-clear-no-such-hyp".

(** ** JavaScript values that reach string positions *)

(** [localStorage.getItem] returns a string or [null]; a template literal
    applies ToString to the interpolated value, and ToString(null) is the
    text "null". *)
Definition to_string (v : option string) : string :=
  match v with
  | Some s => s
  | None => "null"
  end.

(** Settlement state of a promise. *)
Inductive promise (A : Type) : Type :=
  | Pending
  | Fulfilled (v : A)
  | Rejected.
Arguments Pending {A}.
Arguments Fulfilled {A} v.
Arguments Rejected {A}.

(** ** Schedules *)

(** A schedule is the sequence of events the environment delivers; a
    script's step function says what one event does to the state, and
    answers [None] when the event cannot happen in that state. *)
Fixpoint exec {S E : Type} (step : S → E → option S) (st : S)
    (sched : list E) : option S :=
  match sched with
  | [] => Some st
  | e :: sched' =>
      match step st e with
      | Some st' => exec step st' sched'
      | None => None
      end
  end.

(** ** DOM and storage *)

(** An element: tag name, the properties assigned to it in assignment
    order, and its child nodes. *)
#[local] Unset Elimination Schemes.
Inductive node : Type :=
  | Element (tagName : string) (props : list (string * string))
            (childNodes : list node).
#[local] Set Elimination Schemes.

Definition createElement (tag : string) : node := Element tag [] [].

Definition set_prop (k v : string) (n : node) : node :=
  match n with
  | Element t ps cs => Element t (ps ++ [(k, v)]) cs
  end.

Definition appendChild (c : node) (n : node) : node :=
  match n with
  | Element t ps cs => Element t ps (cs ++ [c])
  end.

(** Listeners the scripts register on the toggle's change event. *)
Inductive listener : Type :=
  | ThemeListener.   (* script.js, lines 38-41 *)

(** The part of the browser the scripts read or write.
    - [localStorage]: the origin's key/value store;
    - [rootStyle]: the declarations set on the inline style of [:root],
      property name to the value text handed to [setProperty];
    - [navbar]: the inner markup of the element with id navbar;
    - [themeToggle]: the checked state of the input inside the element with
      id theme-switch, [None] while the document has no such input;
    - [changeListeners]: the listeners attached to that input;
    - [siteList]: the child nodes of the element with id site-list. *)
Record page : Type := Page {
  localStorage : gmap string string;
  rootStyle : gmap string string;
  navbar : string;
  themeToggle : option bool;
  changeListeners : list listener;
  siteList : list node
}.

Definition getItem (k : string) (p : page) : option string :=
  localStorage p !! k.

Definition setItem (k v : string) (p : page) : page :=
  Page (<[k := v]> (localStorage p)) (rootStyle p) (navbar p)
       (themeToggle p) (changeListeners p) (siteList p).

Definition setProperty (k v : string) (p : page) : page :=
  Page (localStorage p) (<[k := v]> (rootStyle p)) (navbar p)
       (themeToggle p) (changeListeners p) (siteList p).

(** ** script.js: the theme controller *)

(** Lines 1-10. *)
Definition updateTheme (theme : option string) (p : page) : page :=
  let p := setProperty "--crust" ("var(--" +:+ to_string theme +:+ "-crust)") p in
  let p := setProperty "--mantle" ("var(--" +:+ to_string theme +:+ "-mantle)") p in
  let p := setProperty "--base" ("var(--" +:+ to_string theme +:+ "-base)") p in
  let p := setProperty "--surface0" ("var(--" +:+ to_string theme +:+ "-surface0)") p in
  let p := setProperty "--surface1" ("var(--" +:+ to_string theme +:+ "-surface1)") p in
  let p := setProperty "--surface2" ("var(--" +:+ to_string theme +:+ "-surface2)") p in
  setProperty "--text" ("var(--" +:+ to_string theme +:+ "-text)") p.

(** Lines 13-17: the load sequence. *)
Definition theme_init (p : page) : page :=
  let theme := getItem "theme" p in
  let p := match theme with
           | None => setItem "theme" "dark" p
           | Some _ => p
           end in
  updateTheme (getItem "theme" p) p.

(** Lines 38-41: the body of the change listener; [checked] is
    [e.target.checked]. *)
Definition on_change (checked : bool) (p : page) : page :=
  let p := setItem "theme" (if checked then "light" else "dark") p in
  updateTheme (getItem "theme" p) p.

Definition run_listener (l : listener) (checked : bool) (p : page) : page :=
  match l with
  | ThemeListener => on_change checked p
  end.

(** ** The navbar loader, in its two copies *)

(** The promises the loader creates, named by the expression that creates
    them (script.js lines 19-29, the stand-alone loader lines 2-12). *)
Record loader : Type := Loader {
  fetchP : promise unit;       (* fetch("navbar.html") *)
  textP : promise string;      (* .then((response) => response.text()) *)
  chainP : promise unit;       (* .then((data) => resolve(data)) *)
  getNavbar : promise string;  (* new Promise(...) *)
  thenP : promise unit         (* getNavbar.then(...) *)
}.

Inductive script : Type :=
  | ScriptJs      (* script.js *)
  | NavbarOnly.   (* the stand-alone navbar loader *)

(** What the environment can do to the page: settle the fetch, settle the
    body read, or (the user) flip the checkbox. *)
Inductive event : Type :=
  | FetchResolved
  | FetchRejected
  | TextResolved (data : string)
  | TextRejected
  | Change (checked : bool).

Inductive outcome : Type :=
  | Returned
  | Threw.

Section Loader.

(** The navbar fragment is not parsed by the scripts; what matters of it
    is whether its markup holds an input inside an element with id
    theme-switch, and that input's initial checked state. *)
Variable parse_toggle : string → option bool.

(** [document.getElementById("navbar").innerHTML = data]: the former
    children of the placeholder, with their listeners, are replaced by
    the parsed fragment. *)
Definition set_navbar (data : string) (p : page) : page :=
  Page (localStorage p) (rootStyle p) data (parse_toggle data) []
       (siteList p).

(** script.js, lines 29-42. *)
Definition on_navbar_script (data : string) (p : page) : page * outcome :=
  let p := set_navbar data p in
  let theme := getItem "theme" p in
  match themeToggle p with
  | None => (p, Threw)   (* lines 33-36 dereference null *)
  | Some _ =>
      (Page (localStorage p) (rootStyle p) (navbar p)
            (Some (bool_decide (theme = Some "light")))
            (changeListeners p ++ [ThemeListener]) (siteList p),
       Returned)
  end.

(** The stand-alone loader, lines 12-14. *)
Definition on_navbar_only (data : string) (p : page) : page * outcome :=
  (set_navbar data p, Returned).

Definition on_navbar (v : script) : string → page → page * outcome :=
  match v with
  | ScriptJs => on_navbar_script
  | NavbarOnly => on_navbar_only
  end.

Definition settle (o : outcome) : promise unit :=
  match o with
  | Returned => Fulfilled ()
  | Threw => Rejected
  end.

(** The user flips the checkbox to [checked]; the change event then runs
    the attached listeners in order. *)
Definition dispatch_change (checked : bool) (p : page) : page :=
  let p := Page (localStorage p) (rootStyle p) (navbar p) (Some checked)
                (changeListeners p) (siteList p) in
  foldl (λ q l, run_listener l checked q) p (changeListeners p).

(** One event. [None]: the event cannot happen in this state (a promise
    settles once; a checkbox that is not in the document cannot be
    flipped). *)
Definition step (v : script) (st : loader * page) (e : event)
  : option (loader * page) :=
  let '(rt, p) := st in
  match e with
  | FetchResolved =>
      match fetchP rt with
      | Pending =>
          Some (Loader (Fulfilled ()) (textP rt) (chainP rt) (getNavbar rt)
                       (thenP rt), p)
      | _ => None
      end
  | FetchRejected =>
      match fetchP rt with
      | Pending =>
          (* no rejection handler anywhere: the rejection runs down the
             chain and [resolve] is never called *)
          Some (Loader Rejected Rejected Rejected (getNavbar rt) (thenP rt),
                p)
      | _ => None
      end
  | TextResolved data =>
      match fetchP rt, textP rt with
      | Fulfilled _, Pending =>
          match getNavbar rt with
          | Pending =>
              (* resolve(data), then the reaction registered by
                 getNavbar.then *)
              let '(p', o) := on_navbar v data p in
              Some (Loader (fetchP rt) (Fulfilled data) (Fulfilled ())
                           (Fulfilled data) (settle o), p')
          | _ =>
              Some (Loader (fetchP rt) (Fulfilled data) (Fulfilled ())
                           (getNavbar rt) (thenP rt), p)
          end
      | _, _ => None
      end
  | TextRejected =>
      match fetchP rt, textP rt with
      | Fulfilled _, Pending =>
          Some (Loader (fetchP rt) Rejected Rejected (getNavbar rt)
                       (thenP rt), p)
      | _, _ => None
      end
  | Change checked =>
      match themeToggle p with
      | Some _ => Some (rt, dispatch_change checked p)
      | None => None
      end
  end.

Definition run (v : script)
  : loader * page → list event → option (loader * page) :=
  exec (step v).

(** The page as served: storage and root style as the browser has them,
    the placeholder's markup, no toggle yet. *)
Definition host_page (ls style : gmap string string) (nav : string)
    (cards : list node) : page :=
  Page ls style nav None [] cards.

(** The synchronous part of each script: script.js runs the load sequence
    and then creates the promises; the stand-alone loader only creates
    the promises. *)
Definition boot (v : script) (p : page) : loader * page :=
  (Loader Pending Pending Pending Pending Pending,
   match v with
   | ScriptJs => theme_init p
   | NavbarOnly => p
   end).

End Loader.

(** ** js/sites.js: the site lister *)

Record site_data : Type := SiteData {
  title : string;
  description : string
}.

Record site : Type := Site {
  name : string;
  data : site_data
}.

(** The body of [GET /api/sites]. *)
Record api_response : Type := ApiResponse {
  sites : list site
}.

(** Where one invocation of the [forEach] callback stands.  A suspended
    invocation keeps its locals: the record and the two elements created
    before the first [await]. *)
Inductive task : Type :=
  | AwaitIconFetch (s : site) (link div : node)   (* suspended at line 15 *)
  | AwaitIconBlob (s : site) (link div : node)    (* suspended at line 16 *)
  | TaskDone                                      (* ran through line 36 *)
  | TaskFailed.                                   (* an await rejected *)

(** Where [getSites] itself stands. *)
Inductive frame : Type :=
  | AwaitSitesFetch   (* suspended at line 2 *)
  | AwaitSitesJson    (* suspended at line 3 *)
  | GetSitesReturned
  | GetSitesThrew.

Record lister : Type := Lister {
  main : frame;
  tasks : list task
}.

Section Lister.

(** The icon bytes and [URL.createObjectURL] are the browser's. *)
Variable blob : Type.
Variable createObjectURL : blob → string.

(** Network completions; [i] is the position of the record whose callback
    invocation issued the request. *)
Inductive net_event : Type :=
  | SitesFetched
  | SitesFetchFailed
  | SitesParsed (body : api_response)
  | SitesParseFailed
  | IconFetched (i : nat)
  | IconFetchFailed (i : nat)
  | IconRead (i : nat) (icon : blob)
  | IconReadFailed (i : nat).

(** Lines 9-15: the callback up to its first [await]. *)
Definition card_start (s : site) : task :=
  let link := createElement "a" in
  let link := set_prop "href" ("/sites/" +:+ name s) link in
  let link := set_prop "style" "display: block" link in
  let link := set_prop "target" "_blank" link in
  let div := createElement "div" in
  AwaitIconFetch s link div.

(** Lines 18-36: the callback after the icon has been read. *)
Definition card_finish (s : site) (link div : node) (icon : blob) (p : page)
  : page :=
  let image := createElement "img" in
  let image := set_prop "src" (createObjectURL icon) image in
  let image := set_prop "className" "site-icon" image in
  let name := createElement "h3" in
  let name := set_prop "innerText" (title (data s)) name in
  let name := set_prop "className" "site-name" name in
  let description_ := createElement "p" in
  let description_ := set_prop "innerText" (description (data s)) description_ in
  let description_ := set_prop "className" "site-description" description_ in
  let div := appendChild image div in
  let div := appendChild name div in
  let div := appendChild description_ div in
  let link := appendChild div link in
  let link := set_prop "className" "site" link in
  Page (localStorage p) (rootStyle p) (navbar p) (themeToggle p)
       (changeListeners p) (siteList p ++ [link]).

(** Lines 5-8: [getSites] once the body is parsed. The container is
    cleared, then [forEach] calls the callback on every record in order;
    each call runs up to its first [await] and returns. *)
Definition getSites_resume (body : api_response) (p : page) : lister * page :=
  let p := Page (localStorage p) (rootStyle p) (navbar p) (themeToggle p)
                (changeListeners p) [] in
  (Lister GetSitesReturned (card_start <$> sites body), p).

(** Line 40: the call of [getSites], up to its first [await]. *)
Definition getSites (p : page) : lister * page :=
  (Lister AwaitSitesFetch [], p).

Definition set_task (i : nat) (t : task) (rt : lister) : lister :=
  Lister (main rt) (<[i := t]> (tasks rt)).

(** One network completion; [None] when no such request is pending. *)
Definition lister_step (st : lister * page) (e : net_event)
  : option (lister * page) :=
  let '(rt, p) := st in
  match e with
  | SitesFetched =>
      match main rt with
      | AwaitSitesFetch => Some (Lister AwaitSitesJson (tasks rt), p)
      | _ => None
      end
  | SitesFetchFailed =>
      match main rt with
      | AwaitSitesFetch => Some (Lister GetSitesThrew (tasks rt), p)
      | _ => None
      end
  | SitesParsed body =>
      match main rt with
      | AwaitSitesJson => Some (getSites_resume body p)
      | _ => None
      end
  | SitesParseFailed =>
      match main rt with
      | AwaitSitesJson => Some (Lister GetSitesThrew (tasks rt), p)
      | _ => None
      end
  | IconFetched i =>
      match tasks rt !! i with
      | Some (AwaitIconFetch s link div) =>
          Some (set_task i (AwaitIconBlob s link div) rt, p)
      | _ => None
      end
  | IconFetchFailed i =>
      match tasks rt !! i with
      | Some (AwaitIconFetch _ _ _) => Some (set_task i TaskFailed rt, p)
      | _ => None
      end
  | IconRead i icon =>
      match tasks rt !! i with
      | Some (AwaitIconBlob s link div) =>
          Some (set_task i TaskDone rt, card_finish s link div icon p)
      | _ => None
      end
  | IconReadFailed i =>
      match tasks rt !! i with
      | Some (AwaitIconBlob _ _ _) => Some (set_task i TaskFailed rt, p)
      | _ => None
      end
  end.

Definition lister_run
  : lister * page → list net_event → option (lister * page) :=
  exec lister_step.

(** The card the callback builds for a record and its icon. *)
Definition card (s : site) (icon : blob) : node :=
  Element "a"
    [("href", "/sites/" +:+ name s); ("style", "display: block");
     ("target", "_blank"); ("className", "site")]
    [Element "div" []
       [Element "img"
          [("src", createObjectURL icon); ("className", "site-icon")] [];
        Element "h3"
          [("innerText", title (data s)); ("className", "site-name")] [];
        Element "p"
          [("innerText", description (data s));
           ("className", "site-description")] []]].

(** The icon reads of a schedule, in the order they complete. *)
Definition reads (sched : list net_event) : list (nat * blob) :=
  omap (λ e, match e with
             | IconRead i icon => Some (i, icon)
             | _ => None
             end) sched.

(** The positions whose icon read completed, in that order. *)
Definition finished (sched : list net_event) : list nat :=
  fst <$> reads sched.

(** [cs] are the cards of the records at the positions [order], with the
    icons [order] names, in that order. *)
Definition cards_of (body : api_response) (cs : list node)
    (order : list (nat * blob)) : Prop :=
  Forall2 (λ c ib, ∃ s, sites body !! ib.1 = Some s ∧ c = card s ib.2)
          cs order.

(** The schedule that completes the icon requests one record after the
    other, in the given order of positions. *)
Definition one_by_one (icon : nat → blob) (order : list nat)
  : list net_event :=
  order ≫= λ i, [IconFetched i; IconRead i (icon i)].

(** A run of sites.js: the API answers with [body], after which the
    icon requests complete as [sched] says. *)
Definition list_sites (p : page) (body : api_response)
    (sched : list net_event) : option (lister * page) :=
  lister_run (getSites p) (SitesFetched :: SitesParsed body :: sched).

(** [cs] is the list of the records' cards in the order of the records,
    whatever the icons. *)
Definition in_order (body : api_response) (cs : list node) : Prop :=
  ∃ icons : list blob, cs = zip_with card (sites body) icons.

(** What the schedule so far says about the callback invocation at
    position [i]. *)
Definition task_ok (body : api_response) (sched : list net_event)
    (i : nat) (t : task) : Prop :=
  match t with
  | AwaitIconFetch s link div =>
      sites body !! i = Some s ∧ card_start s = AwaitIconFetch s link div
      ∧ i ∉ finished sched
  | AwaitIconBlob s link div =>
      sites body !! i = Some s ∧ card_start s = AwaitIconFetch s link div
      ∧ (i ∉ finished sched) ∧ IconFetched i ∈ sched
  | TaskDone => i ∈ finished sched ∧ IconFetched i ∈ sched
  | TaskFailed => i ∉ finished sched
  end.

(** The container holds, in the order the icon reads completed, the cards
    of the records whose read completed; each of them at most once. *)
Definition lister_inv (body : api_response) (sched : list net_event)
    (st : lister * page) : Prop :=
  main st.1 = GetSitesReturned
  ∧ length (tasks st.1) = length (sites body)
  ∧ (∀ i t, tasks st.1 !! i = Some t → task_ok body sched i t)
  ∧ cards_of body (siteList st.2) (reads sched)
  ∧ NoDup (finished sched).

End Lister.

Arguments SitesFetched {blob}.
Arguments SitesFetchFailed {blob}.
Arguments SitesParsed {blob} body.
Arguments SitesParseFailed {blob}.
Arguments IconFetched {blob} i.
Arguments IconFetchFailed {blob} i.
Arguments IconRead {blob} i icon.
Arguments IconReadFailed {blob} i.
Arguments reads {blob} sched.
Arguments finished {blob} sched.
Arguments one_by_one {blob} icon order.
Arguments lister_step {blob} createObjectURL st e.
Arguments lister_run {blob} createObjectURL.
Arguments list_sites {blob} createObjectURL p body sched.
Arguments card_finish {blob} createObjectURL s link div icon p.
Arguments card {blob} createObjectURL s icon.
Arguments cards_of {blob} createObjectURL body cs order.
Arguments in_order {blob} createObjectURL body cs.
Arguments task_ok {blob} body sched i t.
Arguments lister_inv {blob} createObjectURL body sched st.

(** ** Vocabulary of the properties *)

(** The UI layers whose custom property [updateTheme] overrides. *)
Definition layers : list string :=
  ["crust"; "mantle"; "base"; "surface0"; "surface1"; "surface2"; "text"].

(** Every overridden root property [--layer] holds [var(--t-layer)]. *)
Definition references (t : string) (p : page) : Prop :=
  ∀ layer, layer ∈ layers →
    rootStyle p !! ("--" +:+ layer)
    = Some ("var(--" +:+ t +:+ "-" +:+ layer +:+ ")").

(** The stored preference is one of the two themes. *)
Definition valid_theme (p : page) : Prop :=
  getItem "theme" p = Some "dark" ∨ getItem "theme" p = Some "light".

(** The root style is the one of the stored preference. *)
Definition applied_agrees (p : page) : Prop :=
  ∃ t, getItem "theme" p = Some t ∧ references t p.

(** How the promises of the chain, the placeholder and the toggle hang
    together in every state, and what the schedule must contain for a
    promise to be settled. [nav0] is the placeholder's markup as served. *)
Definition coherent (nav0 : string) (sched : list event)
    (st : loader * page) : Prop :=
  match getNavbar st.1 with
  | Pending =>
      thenP st.1 = Pending ∧ themeToggle st.2 = None
      ∧ changeListeners st.2 = [] ∧ navbar st.2 = nav0
  | Fulfilled d =>
      fetchP st.1 = Fulfilled () ∧ textP st.1 = Fulfilled d
      ∧ navbar st.2 = d
  | Rejected => False
  end
  ∧ match fetchP st.1 with
    | Pending => textP st.1 = Pending
    | Rejected => textP st.1 = Rejected
    | Fulfilled _ => True
    end
  ∧ match textP st.1 with
    | Fulfilled _ => True
    | _ => getNavbar st.1 = Pending
    end
  ∧ (fetchP st.1 = Fulfilled () → FetchResolved ∈ sched)
  ∧ (FetchRejected ∈ sched → fetchP st.1 = Rejected)
  ∧ (∀ d, textP st.1 = Fulfilled d → TextResolved d ∈ sched).

(** In script.js a toggle that is in the document carries the theme
    listener: lookup, initial state and listener are set in the reaction
    that injects the fragment. *)
Definition wired (st : loader * page) : Prop :=
  is_Some (themeToggle st.2) → changeListeners st.2 = [ThemeListener].

(** ** Concrete pages *)

(** A fragment whose markup holds the toggle, unchecked. *)
Definition with_toggle (_ : string) : option bool := Some false.

(** Object URLs, as far as these runs need them. *)
Definition blob_url (icon : string) : string := "blob:" +:+ icon.

Definition two_sites : api_response :=
  ApiResponse [Site "alpha" (SiteData "Alpha" "the first site");
               Site "beta" (SiteData "Beta" "the second site")].

(** ** Vocabulary of the further properties *)

(** The checkbox shows the stored preference: checked exactly when the
    stored value is "light". *)
Definition toggle_shows_stored (p : page) : Prop :=
  ∀ b, themeToggle p = Some b →
       b = bool_decide (getItem "theme" p = Some "light").

(** The names of the root properties [updateTheme] writes. *)
Definition theme_properties : list string := String.append "--" <$> layers.

(** A fragment whose markup holds no toggle. *)
Definition without_toggle (_ : string) : option bool := None.

(** * Properties *)

(** Membership in a schedule extended by one event. *)
Ltac split_mem :=
  repeat match goal with
    | H : _ ∈ _ ++ [_] |- _ =>
        apply elem_of_app in H as [H|H];
        [|apply list_elem_of_singleton in H]
    | H : _ ∈ [] |- _ => by apply elem_of_nil in H
    | |- context [_ ∈ _ ++ [_]] =>
        rewrite elem_of_app, list_elem_of_singleton
    end.


(** ** The theme controller *)

Lemma updateTheme_references t p : references t (updateTheme (Some t) p).
Proof.
  intros layer Hin. unfold layers in Hin.
  rewrite !elem_of_cons, elem_of_nil in Hin.
  unfold updateTheme, setProperty; simpl.
  destruct Hin as [->|[->|[->|[->|[->|[->|[->|[]]]]]]]];
    by simplify_map_eq.
Qed.

Lemma updateTheme_frame theme p :
  localStorage (updateTheme theme p) = localStorage p
  ∧ navbar (updateTheme theme p) = navbar p
  ∧ themeToggle (updateTheme theme p) = themeToggle p
  ∧ changeListeners (updateTheme theme p) = changeListeners p
  ∧ siteList (updateTheme theme p) = siteList p.
Proof. done. Qed.

Lemma updateTheme_others theme p k :
  k ∉ (String.append "--" <$> layers) →
  rootStyle (updateTheme theme p) !! k = rootStyle p !! k.
Proof.
  intros Hk. unfold layers in Hk. simpl in Hk.
  rewrite !not_elem_of_cons in Hk.
  destruct Hk as (?&?&?&?&?&?&?&_).
  unfold updateTheme, setProperty; simpl.
  by rewrite !lookup_insert_ne.
Qed.

(** C6. For every theme string [t], [updateTheme] makes each of the seven
    root properties crust, mantle, base, surface0, surface1, surface2 and
    text hold [var(--t-layer)], and changes nothing else: every other
    declaration of the root style, the storage and the rest of the page are
    as before. *)
Theorem updateTheme_rewrites_layers (t : string) (p : page) :
  references t (updateTheme (Some t) p)
  ∧ (∀ k, k ∉ (String.append "--" <$> layers) →
       rootStyle (updateTheme (Some t) p) !! k = rootStyle p !! k)
  ∧ dom (rootStyle (updateTheme (Some t) p))
    = dom (rootStyle p) ∪ list_to_set (String.append "--" <$> layers)
  ∧ localStorage (updateTheme (Some t) p) = localStorage p.
Proof.
  split; [apply updateTheme_references|].
  split; [intros k; apply updateTheme_others|].
  split; [|done].
  unfold updateTheme, setProperty; simpl.
  rewrite !dom_insert_L. apply set_eq. intros k.
  rewrite !elem_of_union, !elem_of_singleton, elem_of_empty. tauto.
Qed.

Lemma theme_init_absent p :
  getItem "theme" p = None →
  getItem "theme" (theme_init p) = Some "dark"
  ∧ references "dark" (theme_init p).
Proof.
  intros Hnone. unfold theme_init. rewrite Hnone.
  assert (getItem "theme" (setItem "theme" "dark" p) = Some "dark") as ->
    by (unfold getItem, setItem; simpl; apply lookup_insert_eq).
  split; [|apply updateTheme_references].
  unfold getItem. rewrite (proj1 (updateTheme_frame _ _)).
  simpl. apply lookup_insert_eq.
Qed.

Lemma theme_init_present p s :
  getItem "theme" p = Some s →
  localStorage (theme_init p) = localStorage p
  ∧ references s (theme_init p).
Proof.
  intros Hs. unfold theme_init. rewrite Hs. simpl. rewrite Hs.
  split; [done|apply updateTheme_references].
Qed.

Lemma on_change_spec checked p :
  getItem "theme" (on_change checked p)
  = Some (if checked then "light" else "dark")
  ∧ references (if checked then "light" else "dark") (on_change checked p).
Proof.
  unfold on_change.
  assert (getItem "theme"
            (setItem "theme" (if checked then "light" else "dark") p)
          = Some (if checked then "light" else "dark")) as ->
    by (unfold getItem, setItem; simpl; apply lookup_insert_eq).
  split; [|apply updateTheme_references].
  unfold getItem. rewrite (proj1 (updateTheme_frame _ _)).
  simpl. apply lookup_insert_eq.
Qed.

Lemma load_valid_aux p s :
  getItem "theme" p = Some s → getItem "theme" (theme_init p) = Some s.
Proof.
  intros Hs. destruct (theme_init_present p s Hs) as [Hls _].
  unfold getItem in *. by rewrite Hls.
Qed.

(** C2. If storage has no value under the key theme when the page loads,
    then after the load sequence storage holds "dark" under that key and
    each overridden root property references its [--dark-] variant. *)
Theorem load_defaults_to_dark (p : page) :
  getItem "theme" p = None →
  getItem "theme" (theme_init p) = Some "dark"
  ∧ references "dark" (theme_init p).
Proof. apply theme_init_absent. Qed.

Lemma load_defaults_to_dark_witness :
  getItem "theme" (Page ∅ ∅ "" None [] []) = None
  ∧ getItem "theme" (theme_init (Page ∅ ∅ "" None [] [])) = Some "dark"
  ∧ references "dark" (theme_init (Page ∅ ∅ "" None [] [])).
Proof.
  split; [reflexivity|].
  apply (load_defaults_to_dark (Page ∅ ∅ "" None [] [])). reflexivity.
Defined.

(** C10. If storage already holds a value [s] under the key theme at load,
    whatever string [s] is, the load sequence leaves storage as it is and
    applies [s] unchecked: each overridden root property references its
    [--s-] variant. *)
Theorem load_applies_stored_verbatim (p : page) (s : string) :
  getItem "theme" p = Some s →
  localStorage (theme_init p) = localStorage p
  ∧ getItem "theme" (theme_init p) = Some s
  ∧ references s (theme_init p).
Proof.
  intros Hs. destruct (theme_init_present p s Hs) as [Hls Href].
  split; [done|]. split; [|done].
  unfold getItem in *. by rewrite Hls.
Qed.

Lemma load_applies_stored_verbatim_witness :
  let p := Page {[ "theme" := "solarized" ]} ∅ "" None [] [] in
  getItem "theme" p = Some "solarized"
  ∧ localStorage (theme_init p) = localStorage p
  ∧ getItem "theme" (theme_init p) = Some "solarized"
  ∧ references "solarized" (theme_init p).
Proof.
  intros p. split; [reflexivity|].
  apply (load_applies_stored_verbatim p "solarized"). reflexivity.
Defined.

(** ** Schedules, one event at a time *)

Lemma exec_app {S E} (step : S → E → option S) st sched1 sched2 :
  exec step st (sched1 ++ sched2)
  = exec step st sched1 ≫= λ st', exec step st' sched2.
Proof.
  revert st. induction sched1 as [|e sched1 IH]; intros st; simpl; [done|].
  destruct (step st e); [apply IH|done].
Qed.

Lemma exec_snoc {S E} (step : S → E → option S) st sched e :
  exec step st (sched ++ [e]) = exec step st sched ≫= λ st', step st' e.
Proof.
  rewrite exec_app. destruct (exec step st sched) as [st'|]; simpl; [|done].
  by destruct (step st' e).
Qed.

(** Induction over the states a schedule reaches. *)
Lemma exec_ind {S E} (step : S → E → option S) st0
    (P : list E → S → Prop) :
  P [] st0 →
  (∀ sched st e st',
     exec step st0 sched = Some st → P sched st →
     step st e = Some st' → P (sched ++ [e]) st') →
  ∀ sched st, exec step st0 sched = Some st → P sched st.
Proof.
  intros Hnil Hstep sched.
  induction sched as [|e sched IH] using rev_ind; intros st Hrun.
  - simpl in Hrun. by simplify_eq.
  - rewrite exec_snoc in Hrun.
    destruct (exec step st0 sched) as [st1|] eqn:Hpre;
      simpl in Hrun; [|done].
    eapply Hstep; [done|by apply IH|done].
Qed.

(** ** Runs of the navbar loader *)

Section LoaderProperties.

Variable parse_toggle : string → option bool.

Lemma run_snoc v st sched e :
  run parse_toggle v st (sched ++ [e])
  = run parse_toggle v st sched ≫= λ st', step parse_toggle v st' e.
Proof. apply exec_snoc. Qed.

Lemma run_ind v st0 (P : list event → loader * page → Prop) :
  P [] st0 →
  (∀ sched st e st',
     run parse_toggle v st0 sched = Some st → P sched st →
     step parse_toggle v st e = Some st' → P (sched ++ [e]) st') →
  ∀ sched st, run parse_toggle v st0 sched = Some st → P sched st.
Proof. apply exec_ind. Qed.

Lemma listeners_frame checked ls q :
  let q' := foldl (λ q l, run_listener l checked q) q ls in
  navbar q' = navbar q ∧ themeToggle q' = themeToggle q
  ∧ changeListeners q' = changeListeners q ∧ siteList q' = siteList q.
Proof.
  revert q. induction ls as [|[] ls IH]; intros q; simpl; [done|].
  destruct (IH (on_change checked q)) as (->&->&->&->). done.
Qed.

Lemma dispatch_change_frame checked p :
  navbar (dispatch_change checked p) = navbar p
  ∧ themeToggle (dispatch_change checked p) = Some checked
  ∧ changeListeners (dispatch_change checked p) = changeListeners p
  ∧ siteList (dispatch_change checked p) = siteList p.
Proof.
  unfold dispatch_change. cbv zeta. simpl.
  pose proof (listeners_frame checked (changeListeners p)
                (Page (localStorage p) (rootStyle p) (navbar p) (Some checked)
                      (changeListeners p) (siteList p))) as Hframe.
  simpl in Hframe. by destruct Hframe as (->&->&->&->).
Qed.

Lemma theme_init_frame p :
  navbar (theme_init p) = navbar p
  ∧ themeToggle (theme_init p) = themeToggle p
  ∧ changeListeners (theme_init p) = changeListeners p
  ∧ siteList (theme_init p) = siteList p.
Proof. unfold theme_init. by destruct (getItem "theme" p). Qed.

Lemma boot_coherent v ls style nav cards :
  coherent nav [] (boot v (host_page ls style nav cards)).
Proof.
  unfold coherent, boot; simpl.
  destruct (theme_init_frame (host_page ls style nav cards)) as (Hn&Ht&Hl&_).
  repeat split; try done; try (by destruct v); intros; split_mem.
Qed.

Lemma on_navbar_navbar v d p : navbar (on_navbar parse_toggle v d p).1 = d.
Proof.
  destruct v; simpl; [|done].
  unfold on_navbar_script; simpl. by destruct (parse_toggle d).
Qed.

Lemma step_coherent v nav0 sched st e st' :
  coherent nav0 sched st → step parse_toggle v st e = Some st' →
  coherent nav0 (sched ++ [e]) st'.
Proof.
  destruct st as [[f t c g h] p]. unfold coherent; simpl.
  intros (Hg & Hf & Ht & Hfr & Hfj & Htr) Hstep.
  destruct e as [| |d| |checked]; simpl in Hstep.
  - destruct f; simplify_eq; simpl.
    repeat split; try done; intros; split_mem; naive_solver.
  - destruct f; simplify_eq; simpl.
    repeat split; try tauto; intros; split_mem; naive_solver.
  - destruct f as [|[]|]; try done. destruct t; try done.
    rewrite Ht in *.
    pose proof (on_navbar_navbar v d p) as Hd.
    destruct (on_navbar parse_toggle v d p) as [p' o].
    simplify_eq; simpl in *.
    repeat split; try done; intros; split_mem; naive_solver.
  - destruct f as [|[]|]; try done. destruct t; try done.
    rewrite Ht in *. simplify_eq; simpl.
    repeat split; try tauto; intros; split_mem; naive_solver.
  - destruct (themeToggle p) eqn:Htog; [|done]. simplify_eq; simpl.
    destruct (dispatch_change_frame checked p) as (Hn & Hto & Hl & _).
    rewrite Hn, Hto, Hl.
    destruct g; try done; [destruct Hg as (_ & ? & _); congruence|].
    repeat split; try tauto; intros; split_mem; naive_solver.
Qed.

Lemma run_coherent v ls style nav cards sched st :
  run parse_toggle v (boot v (host_page ls style nav cards)) sched = Some st →
  coherent nav sched st.
Proof.
  revert sched st. apply run_ind.
  - apply boot_coherent.
  - intros sched st e st' _ Hc Hstep. by eapply step_coherent.
Qed.

Lemma step_wired st e st' :
  wired st → step parse_toggle ScriptJs st e = Some st' → wired st'.
Proof.
  destruct st as [[f t c g h] p]. unfold wired; simpl. intros Hw Hstep.
  destruct e as [| |d| |checked]; simpl in Hstep.
  - destruct f; by simplify_eq.
  - destruct f; by simplify_eq.
  - destruct f as [|[]|]; try done. destruct t; try done.
    destruct g; simplify_eq; try done.
    unfold on_navbar_script in Hstep; simpl in Hstep.
    destruct (parse_toggle d) eqn:Hparse; simplify_eq; simpl; [done|].
    rewrite Hparse. by intros [? ?].
  - destruct f as [|[]|]; try done. destruct t; by simplify_eq.
  - destruct (themeToggle p) eqn:Htog; [|done]. simplify_eq; simpl.
    destruct (dispatch_change_frame checked p) as (_ & _ & -> & _).
    intros _. by apply Hw.
Qed.

Lemma run_wired ls style nav cards sched st :
  run parse_toggle ScriptJs (boot ScriptJs (host_page ls style nav cards)) sched
  = Some st → wired st.
Proof.
  revert sched st. apply (run_ind _ _ (λ _, wired)).
  - unfold wired, boot. cbn [fst snd].
    destruct (theme_init_frame (host_page ls style nav cards)) as (_&->&_).
    by intros [? ?].
  - intros sched st e st' _ Hw Hstep. by eapply step_wired.
Qed.

Lemma applied_agrees_ext p q :
  localStorage q = localStorage p → rootStyle q = rootStyle p →
  applied_agrees p → applied_agrees q.
Proof.
  intros Hls Hst (t & Ht & Href). exists t.
  unfold getItem, references in *. rewrite Hls, Hst. done.
Qed.

Lemma theme_init_agrees p : applied_agrees (theme_init p).
Proof.
  destruct (getItem "theme" p) as [s|] eqn:Hs.
  - destruct (theme_init_present p s Hs) as [Hls Href].
    exists s. split; [|done]. unfold getItem in *. by rewrite Hls.
  - exists "dark". by apply theme_init_absent.
Qed.

Lemma listeners_agree checked ls q :
  applied_agrees q →
  applied_agrees (foldl (λ q l, run_listener l checked q) q ls).
Proof.
  revert q. induction ls as [|[] ls IH]; intros q Hq; simpl; [done|].
  apply IH. eexists. apply on_change_spec.
Qed.

Lemma step_agrees v st e st' :
  applied_agrees st.2 → step parse_toggle v st e = Some st' →
  applied_agrees st'.2.
Proof.
  destruct st as [[f t c g h] p]; simpl. intros Ha Hstep.
  destruct e as [| |d| |checked]; simpl in Hstep.
  - destruct f; by simplify_eq.
  - destruct f; by simplify_eq.
  - destruct f as [|[]|]; try done. destruct t; try done.
    destruct g; simplify_eq; try done.
    destruct v; simpl in Hstep; unfold on_navbar_script, on_navbar_only in Hstep;
      simpl in Hstep; [destruct (parse_toggle d)|]; simplify_eq; simpl;
      by eapply applied_agrees_ext.
  - destruct f as [|[]|]; try done. destruct t; by simplify_eq.
  - destruct (themeToggle p); [|done]. simplify_eq; simpl.
    unfold dispatch_change. apply listeners_agree.
    by eapply applied_agrees_ext.
Qed.

(** C4. In every execution of script.js in which the fetch of the navbar
    fragment never resolves (or its body never arrives), the promise
    [getNavbar] stays pending, the reaction that looks up the toggle has
    not run, the document has no toggle, and no change listener is
    attached. *)
Theorem wiring_waits_for_navbar ls style nav cards sched rt p :
  run parse_toggle ScriptJs (boot ScriptJs (host_page ls style nav cards)) sched
  = Some (rt, p) →
  FetchResolved ∉ sched ∨ (∀ d, TextResolved d ∉ sched) →
  getNavbar rt = Pending ∧ thenP rt = Pending
  ∧ themeToggle p = None ∧ changeListeners p = [].
Proof.
  intros Hrun Hnever. apply run_coherent in Hrun.
  destruct rt as [f t c g h]. unfold coherent in Hrun; simpl in *.
  destruct Hrun as (Hg & Hf & Ht & Hfr & Hfj & Htr).
  destruct g as [|d|]; [naive_solver| |done].
  destruct Hg as (Hf' & Ht' & _). exfalso.
  destruct Hnever as [Hn|Hn]; [by apply Hn, Hfr|by apply (Hn d), Htr].
Qed.

(** C5. For each of the two navbar loaders: when the body of the fetched
    fragment arrives, it becomes the inner markup of the navbar placeholder
    and [getNavbar] is fulfilled with it; when the fetch fails, [getNavbar]
    is never settled, the placeholder keeps the markup it was served with,
    and the reaction registered on [getNavbar] never runs. Both outcomes
    can happen. *)
Theorem navbar_loader_contract (v : script) ls style nav cards :
  (∀ sched d st,
     run parse_toggle v (boot v (host_page ls style nav cards))
         (sched ++ [TextResolved d]) = Some st →
     navbar st.2 = d ∧ getNavbar st.1 = Fulfilled d)
  ∧ (∀ d, is_Some (run parse_toggle v (boot v (host_page ls style nav cards))
                       [FetchResolved; TextResolved d]))
  ∧ (∀ sched st,
       run parse_toggle v (boot v (host_page ls style nav cards)) sched
       = Some st →
       FetchRejected ∈ sched →
       getNavbar st.1 = Pending ∧ thenP st.1 = Pending
       ∧ navbar st.2 = nav
       ∧ themeToggle st.2 = None ∧ changeListeners st.2 = [])
  ∧ is_Some (run parse_toggle v (boot v (host_page ls style nav cards))
                 [FetchRejected]).
Proof.
  split; [|split; [|split]].
  - intros sched d st Hrun. rewrite run_snoc in Hrun.
    destruct (run parse_toggle v _ sched) as [[[f t c g h] p]|] eqn:Hpre;
      simpl in Hrun; [|done].
    apply run_coherent in Hpre. unfold coherent in Hpre; simpl in Hpre.
    destruct Hpre as (_ & _ & Ht & _).
    destruct f as [|[]|]; try done. destruct t; try done.
    rewrite Ht in Hrun.
    pose proof (on_navbar_navbar v d p) as Hd.
    destruct (on_navbar parse_toggle v d p) as [p' o].
    by simplify_eq.
  - intros d. unfold run; simpl.
    destruct (on_navbar parse_toggle v d _). by eexists.
  - intros sched [[f t c g h] p] Hrun Hrej.
    apply run_coherent in Hrun. unfold coherent in Hrun; simpl in *.
    destruct Hrun as (Hg & Hf & Ht & _ & Hfj & _).
    rewrite (Hfj Hrej) in Hf. rewrite Hf in Ht. rewrite Ht in Hg.
    naive_solver.
  - by eexists.
Qed.

(** C3. For every change event on the toggle of script.js: when the
    checkbox becomes checked, storage holds "light" under the key theme
    and the overridden root properties reference their [--light-] variants;
    when it becomes unchecked, storage holds "dark" and they reference the
    [--dark-] variants. *)
Theorem toggle_change_persists_and_applies ls style nav cards sched checked
    rt p :
  run parse_toggle ScriptJs (boot ScriptJs (host_page ls style nav cards))
      (sched ++ [Change checked]) = Some (rt, p) →
  getItem "theme" p = Some (if checked then "light" else "dark")
  ∧ references (if checked then "light" else "dark") p
  ∧ themeToggle p = Some checked.
Proof.
  intros Hrun. rewrite run_snoc in Hrun.
  destruct (run parse_toggle ScriptJs _ sched) as [[rt0 p0]|] eqn:Hpre;
    simpl in Hrun; [|done].
  apply run_wired in Hpre. unfold wired in Hpre; simpl in Hpre.
  destruct (themeToggle p0) eqn:Htog; [|done]. simplify_eq.
  unfold dispatch_change; simpl. rewrite Hpre by eauto. simpl.
  split; [apply on_change_spec|]. split; [apply on_change_spec|done].
Qed.

(** C9. At every point of an execution of script.js from the end of the
    load sequence on, hence after the load sequence and after every change
    event, the overridden root properties reference the [--t-] variants of
    exactly the value [t] stored under the key theme. *)
Theorem applied_theme_is_stored_theme ls style nav cards sched rt p :
  run parse_toggle ScriptJs (boot ScriptJs (host_page ls style nav cards)) sched
  = Some (rt, p) →
  applied_agrees p.
Proof.
  revert sched rt p.
  cut (∀ sched st,
         run parse_toggle ScriptJs
             (boot ScriptJs (host_page ls style nav cards)) sched = Some st →
         applied_agrees st.2).
  { intros Hcut sched rt p Hrun. apply (Hcut _ _ Hrun). }
  apply (run_ind _ _ (λ _ st, applied_agrees st.2)).
  - apply theme_init_agrees.
  - intros sched st e st' _ Ha Hstep. by eapply step_agrees.
Qed.

End LoaderProperties.

(** ** Runs of the site lister *)

Section ListerProperties.

Variable blob : Type.
Variable createObjectURL : blob → string.


Lemma card_finish_frame s link div (icon : blob) p :
  localStorage (card_finish createObjectURL s link div icon p)
  = localStorage p.
Proof. done. Qed.

Lemma reads_snoc (sched : list (net_event blob)) e :
  reads (sched ++ [e])
  = reads sched ++ match e with
                   | IconRead i icon => [(i, icon)]
                   | _ => []
                   end.
Proof. unfold reads. rewrite omap_app. by destruct e. Qed.

Lemma finished_snoc (sched : list (net_event blob)) e :
  finished (sched ++ [e])
  = finished sched ++ match e with
                      | IconRead i _ => [i]
                      | _ => []
                      end.
Proof. unfold finished. rewrite reads_snoc, fmap_app. by destruct e. Qed.

Lemma task_ok_snoc body (sched : list (net_event blob)) e i t :
  task_ok body sched i t →
  (∀ icon, e ≠ IconRead i icon) →
  task_ok body (sched ++ [e]) i t.
Proof.
  intros Hok Hne.
  assert (finished (sched ++ [e]) = finished sched
          ∨ ∃ j, j ≠ i
              ∧ finished (sched ++ [e]) = finished sched ++ [j]) as Hreads.
  { unfold finished. rewrite reads_snoc, fmap_app.
    destruct e as [| | | | | |j icon|]; try (left; by rewrite app_nil_r).
    right. exists j. split; [|done]. intros ->. by eapply Hne. }
  assert (∀ k, k ∈ sched → k ∈ sched ++ [e]) as Hmono
    by (intros k Hk; apply elem_of_app; by left).
  assert (i ∈ finished (sched ++ [e]) ↔ i ∈ finished sched) as Hiff.
  { destruct Hreads as [->|(j & Hj & ->)]; [done|].
    rewrite elem_of_app, list_elem_of_singleton. naive_solver. }
  destruct t; simpl in *; rewrite Hiff; naive_solver.
Qed.

Lemma spawn_inv body p :
  lister_inv createObjectURL body [] (getSites_resume body p).
Proof.
  unfold lister_inv, getSites_resume; simpl.
  split; [done|]. split; [by rewrite length_fmap|].
  split; [|split; [constructor|constructor]].
  intros i t Hi. rewrite list_lookup_fmap in Hi.
  destruct (sites body !! i) as [s|] eqn:Hs; simpl in Hi; simplify_eq.
  unfold card_start; simpl.
  split; [done|]. split; [done|]. apply not_elem_of_nil.
Qed.

Lemma step_inv body sched st e st' :
  lister_inv createObjectURL body sched st →
  lister_step createObjectURL st e = Some st' →
  lister_inv createObjectURL body (sched ++ [e]) st'.
Proof.
  destruct st as [[m ts] p]. unfold lister_inv; simpl.
  intros (Hm & Hlen & Hts & Hcards & Hnd) Hstep. subst m.
  destruct e as [| |body'| |i|i|i icon|i]; simpl in Hstep; try done;
    destruct (ts !! i) as [[s link div|s link div| |]|] eqn:Hi;
    simplify_eq; simpl;
    pose proof (Hts _ _ Hi) as Hok; simpl in Hok;
    pose proof (lookup_lt_Some _ _ _ Hi) as Hlt;
    (split; [done|]); (split; [by rewrite length_insert|]);
    rewrite reads_snoc, finished_snoc, ?app_nil_r;
    (split; [intros j t Hj; destruct (decide (i = j)) as [<-|Hne];
             [rewrite list_lookup_insert_eq in Hj by done
             |rewrite list_lookup_insert_ne in Hj by done]|]).
  - simplify_eq; simpl. rewrite finished_snoc, app_nil_r.
    split_mem. naive_solver.
  - apply task_ok_snoc; [by apply Hts|done].
  - done.
  - simplify_eq; simpl. rewrite finished_snoc, app_nil_r. naive_solver.
  - apply task_ok_snoc; [by apply Hts|done].
  - done.
  - simplify_eq; simpl. rewrite finished_snoc. split; split_mem; naive_solver.
  - apply task_ok_snoc; [by apply Hts|]. intros icon' ?. by simplify_eq.
  - destruct Hok as (Hs & Hstart & Hfresh & Hfetched). split.
    + unfold card_start in Hstart. simplify_eq.
      apply Forall2_app; [done|]. constructor; [|constructor].
      by exists s.
    + apply NoDup_app. split; [done|]. split; [|apply NoDup_singleton].
      by intros k Hk ->%list_elem_of_singleton.
  - simplify_eq; simpl. rewrite finished_snoc, app_nil_r. naive_solver.
  - apply task_ok_snoc; [by apply Hts|done].
  - done.
Qed.

Lemma run_inv body p sched st :
  lister_run createObjectURL (getSites_resume body p) sched
  = Some st →
  lister_inv createObjectURL body sched st.
Proof.
  revert sched st. apply exec_ind.
  - apply spawn_inv.
  - intros sched st e st' _ Hinv Hstep. by eapply step_inv.
Qed.

Lemma list_sites_resume p body sched :
  list_sites createObjectURL p body sched
  = lister_run createObjectURL (getSites_resume body p) sched.
Proof. done. Qed.

(** Completing the icon requests one record after the other appends the
    cards in that order. *)
Lemma one_by_one_runs body icon order rt p :
  NoDup order →
  (∀ i, i ∈ order →
     ∃ s, sites body !! i = Some s ∧ tasks rt !! i = Some (card_start s)) →
  ∃ rt' p',
    lister_run createObjectURL (rt, p) (one_by_one icon order)
    = Some (rt', p')
    ∧ siteList p'
      = siteList p
        ++ omap (λ i, (λ s, card createObjectURL s (icon i))
                        <$> sites body !! i) order
    ∧ length (tasks rt') = length (tasks rt)
    ∧ (∀ j, j ∈ order → tasks rt' !! j = Some TaskDone)
    ∧ (∀ j, j ∉ order → tasks rt' !! j = tasks rt !! j).
Proof.
  revert rt p. induction order as [|i order IH]; intros rt p Hnd Hpend.
  - exists rt, p. simpl. rewrite app_nil_r.
    repeat split; try done. intros j Hj. by apply elem_of_nil in Hj.
  - apply NoDup_cons in Hnd as [Hi Hnd].
    destruct (Hpend i) as (s & Hs & Ht); [by left|].
    pose proof (lookup_lt_Some _ _ _ Ht) as Hlt.
    set (rt1 := set_task i (AwaitIconBlob s
                  (Element "a" [("href", "/sites/" +:+ name s);
                                ("style", "display: block");
                                ("target", "_blank")] [])
                  (Element "div" [] [])) rt).
    set (rt2 := set_task i TaskDone rt1).
    set (p2 := card_finish createObjectURL s
                 (Element "a" [("href", "/sites/" +:+ name s);
                               ("style", "display: block");
                               ("target", "_blank")] [])
                 (Element "div" [] []) (icon i) p).
    assert (lister_run createObjectURL (rt, p) (one_by_one icon (i :: order))
            = lister_run createObjectURL (rt2, p2) (one_by_one icon order))
      as ->.
    { unfold one_by_one, lister_run. rewrite bind_cons. simpl.
      rewrite Ht. unfold card_start; simpl.
      rewrite list_lookup_insert_eq by done. done. }
    destruct (IH rt2 p2 Hnd) as (rt' & p' & Hrun & Hcs & Hlen & Hin & Hout).
    { intros j Hj. destruct (Hpend j) as (s' & Hs' & Ht'); [by right|].
      exists s'. split; [done|]. unfold rt2, rt1; simpl.
      assert (i ≠ j) by (by intros ->).
      by rewrite !list_lookup_insert_ne. }
    exists rt', p'. split; [done|]. split; [|split; [|split]].
    + rewrite Hcs. simpl. rewrite Hs. simpl. by rewrite <- app_assoc.
    + rewrite Hlen. unfold rt2, rt1; simpl. by rewrite !length_insert.
    + intros j [->|Hj]%elem_of_cons; [|by apply Hin].
      rewrite Hout by done. unfold rt2, rt1; simpl.
      apply list_lookup_insert_eq. by rewrite length_insert.
    + intros j [Hne Hj]%not_elem_of_cons. rewrite Hout by done.
      unfold rt2, rt1; simpl. by rewrite !list_lookup_insert_ne.
Qed.

(** Completing them one by one in an order that names every position
    once runs every callback to its end. *)
Lemma one_by_one_completes p0 body icon order :
  NoDup order →
  (∀ k, k ∈ order ↔ k < length (sites body)) →
  ∃ rt p,
    list_sites createObjectURL p0 body (one_by_one icon order) = Some (rt, p)
    ∧ Forall (eq TaskDone) (tasks rt)
    ∧ siteList p
      = omap (λ i, (λ s, card createObjectURL s (icon i))
                     <$> sites body !! i) order.
Proof.
  intros Hnd Horder.
  destruct (one_by_one_runs body icon order
              (getSites_resume body p0).1 (getSites_resume body p0).2 Hnd)
    as (rt & p & Hrun & Hcs & Hlen & Hin & _).
  { intros k Hk%Horder. simpl.
    apply lookup_lt_is_Some_2 in Hk as [s Hs]. exists s. split; [done|].
    by rewrite list_lookup_fmap, Hs. }
  exists rt, p. split; [by rewrite list_sites_resume|]. simpl in *.
  split; [|done].
  apply Forall_lookup. intros k t Hk.
  rewrite Hin in Hk; [by simplify_eq|].
  apply Horder. apply lookup_lt_Some in Hk.
  by rewrite Hlen, length_fmap in Hk.
Qed.

(** Only positions of the answered list are ever read. *)
Lemma finished_in_range body cs (sched : list (net_event blob)) i :
  cards_of createObjectURL body cs (reads sched) →
  i ∈ finished sched → i < length (sites body).
Proof.
  intros Hcards Hi. apply list_elem_of_fmap in Hi as (ib & -> & Hib).
  apply list_elem_of_lookup in Hib as [k Hk].
  destruct (Forall2_lookup_r _ _ _ _ _ Hcards Hk) as (c & _ & s & Hs & _).
  by apply lookup_lt_Some in Hs.
Qed.

(** C1. Whenever the API answers with a list of N site records and every
    callback invocation of the lister has run to its end, the site-list
    container holds exactly N children, namely the cards (a link of class
    site around icon, title and description) of the N records, one per
    record, in some order, whatever the container held before; and the
    callbacks can all run to their end. At no point does the container
    hold more than N cards or two cards for one position. When the list is
    empty, the container is empty. *)
Theorem lister_fills_container :
  (∀ p0 body sched rt p,
     list_sites createObjectURL p0 body sched = Some (rt, p) →
     Forall (eq TaskDone) (tasks rt) →
     length (siteList p) = length (sites body)
     ∧ ∃ order : list (nat * blob),
         fst <$> order ≡ₚ seq 0 (length (sites body))
         ∧ cards_of createObjectURL body (siteList p) order)
  ∧ (∀ p0 body (icon : nat → blob),
       ∃ sched rt p,
         list_sites createObjectURL p0 body sched = Some (rt, p)
         ∧ Forall (eq TaskDone) (tasks rt))
  ∧ (∀ p0 body sched rt p,
       list_sites createObjectURL p0 body sched = Some (rt, p) →
       (length (siteList p) ≤ length (sites body))%nat
       ∧ NoDup (finished sched)
       ∧ cards_of createObjectURL body (siteList p) (reads sched))
  ∧ (∀ p0 sched rt p,
       list_sites createObjectURL p0 (ApiResponse []) sched = Some (rt, p) →
       siteList p = []).
Proof.
  assert (∀ p0 body sched rt p,
       list_sites createObjectURL p0 body sched = Some (rt, p) →
       (length (siteList p) ≤ length (sites body))%nat
       ∧ NoDup (finished sched)
       ∧ cards_of createObjectURL body (siteList p) (reads sched)) as Hmost.
  { intros p0 body sched rt p Hrun.
    rewrite list_sites_resume in Hrun. apply run_inv in Hrun.
    destruct Hrun as (_ & _ & _ & Hcards & Hnd); simpl in *.
    split; [|done].
    rewrite (Forall2_length _ _ _ Hcards), <- (length_fmap fst).
    rewrite <- (length_seq (length (sites body)) 0).
    apply submseteq_length, NoDup_submseteq; [done|].
    intros i Hi. apply elem_of_seq.
    pose proof (finished_in_range _ _ _ _ Hcards Hi). lia. }
  split; [|split; [|split; [done|]]].
  - intros p0 body sched rt p Hrun Hdone.
    rewrite list_sites_resume in Hrun. apply run_inv in Hrun.
    destruct Hrun as (_ & Hlen & Hts & Hcards & Hnd); simpl in *.
    assert (finished sched ≡ₚ seq 0 (length (sites body))) as Hperm.
    { apply NoDup_Permutation; [done|apply NoDup_seq|].
      intros i. rewrite elem_of_seq. split.
      - intros Hi. pose proof (finished_in_range _ _ _ _ Hcards Hi). lia.
      - intros [_ Hi]. rewrite <- Hlen in Hi.
        apply lookup_lt_is_Some_2 in Hi as [t Ht].
        pose proof (proj1 (Forall_lookup _ _) Hdone _ _ Ht) as <-.
        by destruct (Hts _ _ Ht). }
    split.
    + rewrite (Forall2_length _ _ _ Hcards).
      unfold finished in Hperm. rewrite <- (length_fmap fst), Hperm.
      apply length_seq.
    + by exists (reads sched).
  - intros p0 body icon.
    destruct (one_by_one_completes p0 body icon (seq 0 (length (sites body))))
      as (rt & p & Hrun & Hdone & _).
    + apply NoDup_seq.
    + intros k. rewrite elem_of_seq. lia.
    + by exists (one_by_one icon (seq 0 (length (sites body)))), rt, p.
  - intros p0 sched rt p Hrun.
    destruct (Hmost _ _ _ _ _ Hrun) as (Hle & _). simpl in Hle.
    destruct (siteList p); [done|simpl in Hle; lia].
Qed.

(** C8. A card is appended only after its own record's icon fetch has
    resolved: the read that appends it comes later in the schedule than
    that fetch, and the container holds the cards in the order in which the
    reads completed. That order need not be the order of the records: when
    the first two records differ in name, some schedule of completions runs
    every callback to its end and leaves the cards in another order. *)
Theorem card_order_follows_completion (p0 : page) (body : api_response) :
  (∀ pre i icon post st,
     list_sites createObjectURL p0 body (pre ++ IconRead i icon :: post)
     = Some st →
     IconFetched i ∈ pre)
  ∧ (∀ sched st,
       list_sites createObjectURL p0 body sched = Some st →
       cards_of createObjectURL body (siteList st.2) (reads sched))
  ∧ (∀ a b rest (icon : nat → blob),
       sites body = a :: b :: rest → name a ≠ name b →
       ∃ sched st,
         list_sites createObjectURL p0 body sched = Some st
         ∧ Forall (eq TaskDone) (tasks st.1)
         ∧ ¬ in_order createObjectURL body (siteList st.2)).
Proof.
  split; [|split].
  - intros pre i icon post st Hrun.
    rewrite list_sites_resume in Hrun. unfold lister_run in Hrun.
    rewrite exec_app in Hrun.
    destruct (exec _ _ pre) as [[rt1 p1]|] eqn:Hpre; simpl in Hrun; [|done].
    apply run_inv in Hpre. destruct Hpre as (_ & _ & Hts & _); simpl in Hts.
    destruct (tasks rt1 !! i) as [[| | |]|] eqn:Hi; try done.
    by destruct (Hts _ _ Hi) as (_ & _ & _ & ?).
  - intros sched st Hrun. rewrite list_sites_resume in Hrun.
    apply run_inv in Hrun. by destruct Hrun as (_ & _ & _ & ? & _).
  - intros a b rest icon Hsites Hname.
    destruct (one_by_one_completes p0 body icon
                (1 :: 0 :: seq 2 (length rest)))
      as (rt & p & Hrun & Hdone & Hcs).
    + repeat apply NoDup_cons_2; [| |apply NoDup_seq].
      * rewrite elem_of_cons, elem_of_seq. lia.
      * rewrite elem_of_seq. lia.
    + intros k. rewrite Hsites, !elem_of_cons, elem_of_seq. simpl. lia.
    + exists (one_by_one icon (1 :: 0 :: seq 2 (length rest))), (rt, p).
      split; [done|]. split; [done|]. simpl.
      intros [icons Hicons]. rewrite Hcs, Hsites in Hicons.
      simpl in Hicons. destruct icons; simplify_eq.
Qed.

End ListerProperties.

(** ** The stored preference across all scripts *)

Lemma on_change_valid checked p : valid_theme (on_change checked p).
Proof.
  destruct (on_change_spec checked p) as [Hget _]. unfold valid_theme.
  rewrite Hget. destruct checked; [by right|by left].
Qed.

Lemma listeners_storage checked ls q :
  let q' := foldl (λ q l, run_listener l checked q) q ls in
  localStorage q' = localStorage q ∨ valid_theme q'.
Proof.
  revert q. induction ls as [|[] ls IH]; intros q; simpl; [by left|].
  right. destruct (IH (on_change checked q)) as [Hsame|Hvalid]; [|done].
  pose proof (on_change_valid checked q) as Hvalid.
  unfold valid_theme, getItem in *. by rewrite Hsame.
Qed.

(** A step of either loader leaves storage alone, unless it is a change
    event whose listener stores one of the two themes. *)
Lemma step_storage parse_toggle v st e st' :
  step parse_toggle v st e = Some st' →
  localStorage st'.2 = localStorage st.2
  ∨ (∃ checked, e = Change checked) ∧ valid_theme st'.2.
Proof.
  destruct st as [[f t c g h] p]; simpl. intros Hstep.
  destruct e as [| |d| |checked]; simpl in Hstep.
  - destruct f; simplify_eq. by left.
  - destruct f; simplify_eq. by left.
  - destruct f as [|[]|]; try done. destruct t; try done.
    destruct g; simplify_eq; try by left.
    destruct v; simpl in Hstep; unfold on_navbar_script, on_navbar_only in Hstep;
      simpl in Hstep; [destruct (parse_toggle d)|]; simplify_eq; by left.
  - destruct f as [|[]|]; try done. destruct t; simplify_eq. by left.
  - destruct (themeToggle p); [|done]. simplify_eq; simpl.
    unfold dispatch_change. cbv zeta. simpl.
    pose proof (listeners_storage checked (changeListeners p)
                  (Page (localStorage p) (rootStyle p) (navbar p)
                        (Some checked) (changeListeners p) (siteList p)))
      as Hfold.
    simpl in Hfold. destruct Hfold as [Hsame|Hvalid].
    + by left.
    + right. split; [by eexists|done].
Qed.

Lemma lister_step_storage {blob} (createObjectURL : blob → string) st e st' :
  lister_step createObjectURL st e = Some st' →
  localStorage st'.2 = localStorage st.2.
Proof.
  destruct st as [[m ts] p]; simpl. intros Hstep.
  destruct e as [| |body| |i|i|i icon|i]; simpl in Hstep;
    try (destruct m; by simplify_eq);
    destruct (ts !! i) as [[| | |]|]; by simplify_eq.
Qed.

(** C7. The stored preference stays one of "dark" and "light": the load
    sequence turns an absent or valid value into a valid one; a change
    event leaves an absent or valid value absent or valid, and the
    listener's write is always valid; hence the value is valid at every
    point of an execution of script.js that started with it absent or
    valid. No step of any of the three scripts removes the key: the load
    sequence and both loaders' steps keep a present key present, and the
    site lister does not touch storage. *)
Theorem stored_theme_stays_valid :
  (∀ p, getItem "theme" p = None ∨ valid_theme p → valid_theme (theme_init p))
  ∧ (∀ parse_toggle v st checked st',
       step parse_toggle v st (Change checked) = Some st' →
       getItem "theme" st.2 = None ∨ valid_theme st.2 →
       getItem "theme" st'.2 = None ∨ valid_theme st'.2)
  ∧ (∀ checked p, valid_theme (on_change checked p))
  ∧ (∀ parse_toggle ls style nav cards sched st,
       ls !! "theme" = None ∨ ls !! "theme" = Some "dark"
       ∨ ls !! "theme" = Some "light" →
       run parse_toggle ScriptJs (boot ScriptJs (host_page ls style nav cards))
           sched = Some st →
       valid_theme st.2)
  ∧ (∀ p, is_Some (getItem "theme" p) →
          is_Some (getItem "theme" (theme_init p)))
  ∧ (∀ parse_toggle v st e st',
       step parse_toggle v st e = Some st' →
       is_Some (getItem "theme" st.2) → is_Some (getItem "theme" st'.2))
  ∧ (∀ (blob : Type) (createObjectURL : blob → string) st e st',
       lister_step createObjectURL st e = Some st' →
       localStorage st'.2 = localStorage st.2).
Proof.
  assert (∀ p, getItem "theme" p = None ∨ valid_theme p →
               valid_theme (theme_init p)) as Hinit.
  { intros p [Hnone|[Hd|Hl]].
    - left. by apply theme_init_absent.
    - left. by apply (load_valid_aux p "dark").
    - right. by apply (load_valid_aux p "light"). }
  assert (∀ parse_toggle v st e st',
            step parse_toggle v st e = Some st' →
            getItem "theme" st.2 = None ∨ valid_theme st.2 →
            getItem "theme" st'.2 = None ∨ valid_theme st'.2) as Hstep.
  { intros parse_toggle v st e st' Hs Hbefore.
    destruct (step_storage _ _ _ _ _ Hs) as [Hsame|[_ Hvalid]]; [|by right].
    unfold valid_theme, getItem in *. by rewrite Hsame. }
  split; [done|]. split; [intros ?????; by apply Hstep|].
  split; [apply on_change_valid|]. split; [|split; [|split]].
  - intros parse_toggle ls style nav cards sched st Hls.
    revert sched st. apply (exec_ind _ _ (λ _ st, valid_theme st.2)).
    + apply Hinit. unfold valid_theme, getItem; simpl. tauto.
    + intros sched st e st' _ Hvalid Hs.
      destruct (Hstep _ _ _ _ _ Hs (or_intror Hvalid)) as [Hnone|?]; [|done].
      destruct (step_storage _ _ _ _ _ Hs) as [Hsame|[_ ?]]; [|done].
      unfold valid_theme, getItem in *. rewrite Hsame in Hnone.
      destruct Hvalid; congruence.
  - intros p _. destruct (theme_init_agrees p) as (t & Ht & _). by eexists.
  - intros parse_toggle v st e st' Hs Hsome.
    destruct (step_storage _ _ _ _ _ Hs) as [Hsame|[_ [Hv|Hv]]].
    + unfold getItem in *. by rewrite Hsame.
    + rewrite Hv. by eexists.
    + rewrite Hv. by eexists.
  - intros blob createObjectURL st e st'. apply lister_step_storage.
Qed.

(** ** The properties on concrete pages *)

(** The fetch fails: nothing is wired. *)
Lemma wiring_waits_for_navbar_witness :
  ∃ rt p,
    run with_toggle ScriptJs (boot ScriptJs (host_page ∅ ∅ "" []))
        [FetchRejected] = Some (rt, p)
    ∧ getNavbar rt = Pending ∧ thenP rt = Pending
    ∧ themeToggle p = None ∧ changeListeners p = [].
Proof.
  eexists _, _. split; [reflexivity|].
  eapply (wiring_waits_for_navbar with_toggle ∅ ∅ "" [] [FetchRejected]);
    [reflexivity|].
  left. intros Hin. apply list_elem_of_singleton in Hin. discriminate.
Defined.

(** The stand-alone loader injects the fragment it fetched. *)
Lemma navbar_loader_contract_witness :
  ∃ st,
    run with_toggle NavbarOnly (boot NavbarOnly (host_page ∅ ∅ "" []))
        ([FetchResolved] ++ [TextResolved "<ul></ul>"]) = Some st
    ∧ navbar st.2 = "<ul></ul>" ∧ getNavbar st.1 = Fulfilled "<ul></ul>".
Proof.
  eexists. split; [reflexivity|].
  eapply (proj1 (navbar_loader_contract with_toggle NavbarOnly ∅ ∅ "" [])
           [FetchResolved] "<ul></ul>").
  reflexivity.
Defined.

(** The user checks the toggle once the navbar is in place. *)
Lemma toggle_change_persists_and_applies_witness :
  ∃ rt p,
    run with_toggle ScriptJs (boot ScriptJs (host_page ∅ ∅ "" []))
        ([FetchResolved; TextResolved "<nav>"] ++ [Change true])
    = Some (rt, p)
    ∧ getItem "theme" p = Some "light"
    ∧ references "light" p
    ∧ themeToggle p = Some true.
Proof.
  eexists _, _. split; [reflexivity|].
  eapply (toggle_change_persists_and_applies with_toggle ∅ ∅ "" []
           [FetchResolved; TextResolved "<nav>"] true).
  reflexivity.
Defined.

(** Light was stored; the user switches back to dark. *)
Lemma applied_theme_is_stored_theme_witness :
  ∃ rt p,
    run with_toggle ScriptJs
        (boot ScriptJs (host_page {[ "theme" := "light" ]} ∅ "" []))
        [FetchResolved; TextResolved "<nav>"; Change false]
    = Some (rt, p)
    ∧ applied_agrees p.
Proof.
  eexists _, _. split; [reflexivity|].
  eapply (applied_theme_is_stored_theme with_toggle {[ "theme" := "light" ]}
           ∅ "" [] [FetchResolved; TextResolved "<nav>"; Change false]).
  reflexivity.
Defined.

(** Two records, the second icon arriving first; an old child of the
    container is cleared. *)
Lemma lister_fills_container_witness :
  ∃ rt p,
    list_sites blob_url (host_page ∅ ∅ "" [createElement "p"]) two_sites
      [IconFetched 0; IconFetched 1; IconRead 1 "i1"; IconRead 0 "i0"]
    = Some (rt, p)
    ∧ Forall (eq TaskDone) (tasks rt)
    ∧ length (siteList p) = length (sites two_sites)
    ∧ ∃ order : list (nat * string),
        fst <$> order ≡ₚ seq 0 (length (sites two_sites))
        ∧ cards_of blob_url two_sites (siteList p) order.
Proof.
  eexists _, _. split; [reflexivity|].
  assert (Forall (eq TaskDone) [TaskDone; TaskDone]) as Hdone
    by (repeat constructor).
  split; [exact Hdone|].
  eapply (proj1 (lister_fills_container string blob_url)
           (host_page ∅ ∅ "" [createElement "p"]) two_sites
           [IconFetched 0; IconFetched 1; IconRead 1 "i1"; IconRead 0 "i0"]);
    [reflexivity|exact Hdone].
Defined.

(** Two records with different names can end up swapped. *)
Lemma card_order_follows_completion_witness :
  sites two_sites
  = [Site "alpha" (SiteData "Alpha" "the first site");
     Site "beta" (SiteData "Beta" "the second site")]
  ∧ "alpha" ≠ "beta"
  ∧ ∃ sched st,
      list_sites blob_url (host_page ∅ ∅ "" []) two_sites sched = Some st
      ∧ Forall (eq TaskDone) (tasks st.1)
      ∧ ¬ in_order blob_url two_sites (siteList st.2).
Proof.
  split; [reflexivity|]. split; [discriminate|].
  apply (proj2 (proj2 (card_order_follows_completion string blob_url
                         (host_page ∅ ∅ "" []) two_sites))
           (Site "alpha" (SiteData "Alpha" "the first site"))
           (Site "beta" (SiteData "Beta" "the second site"))
           [] (λ _, "icon"));
    [reflexivity|discriminate].
Defined.

(** A page that starts without a stored preference and is toggled twice
    holds a valid preference. *)
Lemma stored_theme_stays_valid_witness :
  ∃ st,
    run with_toggle ScriptJs (boot ScriptJs (host_page ∅ ∅ "" []))
        [FetchResolved; TextResolved "<nav>"; Change true; Change false]
    = Some st
    ∧ valid_theme st.2.
Proof.
  eexists. split; [reflexivity|].
  eapply (proj1 (proj2 (proj2 (proj2 stored_theme_stays_valid)))
           with_toggle ∅ ∅ "" []
           [FetchResolved; TextResolved "<nav>"; Change true; Change false]);
    [by left|reflexivity].
Defined.

(** * Further properties *)

(** ** The theme controller *)

Lemma page_eq p q :
  localStorage p = localStorage q → rootStyle p = rootStyle q →
  navbar p = navbar q → themeToggle p = themeToggle q →
  changeListeners p = changeListeners q → siteList p = siteList q →
  p = q.
Proof. destruct p, q; simpl; intros; by subst. Qed.

Lemma updateTheme_to_string theme p :
  updateTheme theme p = updateTheme (Some (to_string theme)) p.
Proof. done. Qed.

Lemma updateTheme_twice theme theme' p :
  updateTheme theme (updateTheme theme' p) = updateTheme theme p.
Proof.
  destruct (updateTheme_frame theme (updateTheme theme' p))
    as (Hls & Hn & Ht & Hl & Hc).
  destruct (updateTheme_frame theme' p) as (Hls' & Hn' & Ht' & Hl' & Hc').
  destruct (updateTheme_frame theme p) as (Hls0 & Hn0 & Ht0 & Hl0 & Hc0).
  apply page_eq; try congruence.
  apply map_eq. intros k.
  destruct (decide (k ∈ String.append "--" <$> layers)) as [Hk|Hk].
  - apply list_elem_of_fmap in Hk as (layer & -> & Hlayer).
    rewrite (updateTheme_to_string theme (updateTheme theme' p)).
    rewrite (updateTheme_to_string theme p).
    rewrite (updateTheme_references _ _ layer Hlayer).
    by rewrite (updateTheme_references _ _ layer Hlayer).
  - by rewrite !updateTheme_others.
Qed.

Lemma on_change_unfold checked p :
  on_change checked p
  = updateTheme (Some (if checked then "light" else "dark"))
      (setItem "theme" (if checked then "light" else "dark") p).
Proof.
  unfold on_change.
  assert (getItem "theme"
            (setItem "theme" (if checked then "light" else "dark") p)
          = Some (if checked then "light" else "dark")) as ->
    by (unfold getItem, setItem; simpl; apply lookup_insert_eq).
  done.
Qed.

Lemma setItem_updateTheme k v theme p :
  setItem k v (updateTheme theme p) = updateTheme theme (setItem k v p).
Proof. done. Qed.

Lemma setItem_twice k v v' p :
  setItem k v (setItem k v' p) = setItem k v p.
Proof. unfold setItem; simpl. f_equal. apply insert_insert_eq. Qed.

(** X1. Only the last write counts: applying a theme over another leaves
    the page as if only the second had been applied, and the page after a
    change event handled by the listener does not depend on the change
    events handled before it. *)
Theorem last_theme_wins :
  (∀ theme theme' p,
     updateTheme theme (updateTheme theme' p) = updateTheme theme p)
  ∧ (∀ checked checked' p,
       on_change checked (on_change checked' p) = on_change checked p).
Proof.
  split; [apply updateTheme_twice|].
  intros checked checked' p. rewrite !on_change_unfold.
  by rewrite setItem_updateTheme, updateTheme_twice, setItem_twice.
Qed.

(** X2. Running the load sequence again on the page it produced changes
    nothing: a reload without user interaction keeps storage and the
    applied theme. *)
Theorem load_sequence_idempotent (p : page) :
  theme_init (theme_init p) = theme_init p.
Proof.
  destruct (getItem "theme" p) as [s|] eqn:Hs.
  - pose proof (load_valid_aux p s Hs) as Hs'.
    unfold theme_init at 1. rewrite Hs'.
    unfold theme_init. rewrite Hs. apply updateTheme_twice.
  - destruct (theme_init_absent p Hs) as [Hdark _].
    unfold theme_init at 1. rewrite Hdark.
    unfold theme_init. rewrite Hs. apply updateTheme_twice.
Qed.

(** ** Further runs of the navbar loader and the toggle *)

Section LoaderFurther.

Variable parse_toggle : string → option bool.

Lemma step_toggle_shows st e st' :
  wired st → toggle_shows_stored st.2 →
  step parse_toggle ScriptJs st e = Some st' →
  toggle_shows_stored st'.2.
Proof.
  destruct st as [[f t c g h] p]. unfold wired; simpl. intros Hw Hshow Hstep.
  destruct e as [| |d| |checked]; simpl in Hstep.
  - destruct f; by simplify_eq.
  - destruct f; by simplify_eq.
  - destruct f as [|[]|]; try done. destruct t; try done.
    destruct g; simplify_eq; try done.
    unfold on_navbar_script in Hstep; simpl in Hstep.
    destruct (parse_toggle d) eqn:Hparse; simplify_eq; simpl.
    + intros b' Hb. simpl in Hb. by simplify_eq.
    + intros b' Hb. simpl in Hb. congruence.
  - destruct f as [|[]|]; try done. destruct t; by simplify_eq.
  - destruct (themeToggle p) eqn:Htog; [|done]. simplify_eq; simpl.
    unfold dispatch_change; simpl. rewrite Hw by eauto. simpl.
    intros b' Hb. simpl in Hb. simplify_eq.
    destruct (on_change_spec b'
                (Page (localStorage p) (rootStyle p) (navbar p) (Some b')
                      [ThemeListener] (siteList p))) as [-> _].
    by destruct b'.
Qed.

(** X3. In every state script.js reaches, a toggle that is in the document
    is checked exactly when the stored preference is "light": the reaction
    that injects the navbar sets it from storage, and every change event
    stores what the checkbox shows. *)
Theorem toggle_reflects_stored_theme ls style nav cards sched rt p :
  run parse_toggle ScriptJs (boot ScriptJs (host_page ls style nav cards)) sched
  = Some (rt, p) →
  toggle_shows_stored p.
Proof.
  revert sched rt p.
  cut (∀ sched st,
         run parse_toggle ScriptJs
             (boot ScriptJs (host_page ls style nav cards)) sched = Some st →
         toggle_shows_stored st.2).
  { intros Hcut sched rt p Hrun. apply (Hcut _ _ Hrun). }
  apply (run_ind _ _ _ (λ _ st, toggle_shows_stored st.2)).
  - intros b Hb. unfold boot in Hb. cbn [snd] in Hb.
    destruct (theme_init_frame (host_page ls style nav cards)) as (_&Ht&_).
    rewrite Ht in Hb. done.
  - intros sched st e st' Hrun Hshow Hstep.
    eapply step_toggle_shows; [by eapply run_wired|done|done].
Qed.

Lemma run_change_stored ls style nav cards sched checked rt p :
  run parse_toggle ScriptJs (boot ScriptJs (host_page ls style nav cards))
      (sched ++ [Change checked]) = Some (rt, p) →
  getItem "theme" p = Some (if checked then "light" else "dark").
Proof.
  intros Hrun. rewrite run_snoc in Hrun.
  destruct (run parse_toggle ScriptJs _ sched) as [[rt0 p0]|] eqn:Hpre;
    simpl in Hrun; [|done].
  apply run_wired in Hpre. unfold wired in Hpre; simpl in Hpre.
  destruct (themeToggle p0) eqn:Htog; [|done]. simplify_eq.
  unfold dispatch_change; simpl. rewrite Hpre by eauto. simpl.
  apply on_change_spec.
Qed.

(** X4. The preference survives a reload: when a run of script.js ends
    with a change event, a later load of a page over the storage that run
    left (with whatever root style and markup) applies the theme of that
    last change and, once a navbar with a toggle is injected, shows the
    toggle as the user left it. *)
Theorem preference_survives_reload ls style nav cards sched checked rt p
    style' nav' cards' d rt' p' :
  run parse_toggle ScriptJs (boot ScriptJs (host_page ls style nav cards))
      (sched ++ [Change checked]) = Some (rt, p) →
  is_Some (parse_toggle d) →
  run parse_toggle ScriptJs
      (boot ScriptJs (host_page (localStorage p) style' nav' cards'))
      [FetchResolved; TextResolved d] = Some (rt', p') →
  getItem "theme" p' = Some (if checked then "light" else "dark")
  ∧ references (if checked then "light" else "dark") p'
  ∧ themeToggle p' = Some checked.
Proof.
  intros Hrun [b0 Hparse] Hreload.
  apply run_change_stored in Hrun.
  set (q := host_page (localStorage p) style' nav' cards') in *.
  assert (getItem "theme" q = Some (if checked then "light" else "dark"))
    as Hq by done.
  destruct (theme_init_present q _ Hq) as [Hls Href].
  unfold run, boot in Hreload.
  set (p1 := theme_init q) in *.
  assert (getItem "theme" p1 = Some (if checked then "light" else "dark"))
    as Hget by (unfold getItem in *; by rewrite Hls).
  clearbody p1. simpl in Hreload.
  unfold on_navbar_script in Hreload; simpl in Hreload.
  rewrite Hparse in Hreload. simplify_eq.
  split; [done|]. split; [done|]. simpl.
  unfold getItem in *; simpl. rewrite Hget. by destruct checked.
Qed.

Lemma run_text_rejected v ls style nav cards sched st :
  run parse_toggle v (boot v (host_page ls style nav cards)) sched = Some st →
  TextRejected ∈ sched → textP st.1 = Rejected.
Proof.
  revert sched st.
  apply (run_ind _ _ _ (λ sched st, TextRejected ∈ sched →
                                    textP st.1 = Rejected)).
  - intros Hin. by apply elem_of_nil in Hin.
  - intros sched [[f t c g h] p] e st' Hrun IH Hstep Hin. simpl in *.
    apply run_coherent in Hrun. unfold coherent in Hrun; simpl in Hrun.
    destruct Hrun as (_ & Hf & _).
    apply elem_of_app in Hin as [Hin|Hin].
    + specialize (IH Hin). subst t.
      destruct e as [| |d| |checked]; simpl in Hstep.
      * destruct f; by simplify_eq.
      * destruct f; by simplify_eq.
      * by destruct f as [|[]|].
      * by destruct f as [|[]|].
      * destruct (themeToggle p); by simplify_eq.
    + apply list_elem_of_singleton in Hin. subst e. simpl in Hstep.
      destruct f as [|[]|]; try done. destruct t; by simplify_eq.
Qed.

(** X5. The body read can fail as well as the fetch: for each of the two
    loaders, once [response.text()] has rejected, [getNavbar] is never
    settled, its reaction never runs, the placeholder keeps the markup it
    was served with, and no toggle or listener ever appears. *)
Theorem body_read_failure_never_settles (v : script) ls style nav cards
    sched st :
  run parse_toggle v (boot v (host_page ls style nav cards)) sched = Some st →
  TextRejected ∈ sched →
  getNavbar st.1 = Pending ∧ thenP st.1 = Pending
  ∧ navbar st.2 = nav
  ∧ themeToggle st.2 = None ∧ changeListeners st.2 = [].
Proof.
  intros Hrun Hrej.
  pose proof (run_text_rejected _ _ _ _ _ _ _ Hrun Hrej) as Htext.
  apply run_coherent in Hrun. destruct st as [[f t c g h] p].
  unfold coherent in Hrun; simpl in *.
  destruct Hrun as (Hg & _ & Ht & _). subst t. rewrite Ht in Hg.
  naive_solver.
Qed.

(** X6. The stand-alone loader changes nothing but the navbar and what its
    markup brings: in every state it reaches, storage, the root style and
    the site list are as served, and the toggle carries no listener, so
    flipping it there persists nothing. *)
Theorem standalone_loader_frame ls style nav cards sched rt p :
  run parse_toggle NavbarOnly (boot NavbarOnly (host_page ls style nav cards))
      sched = Some (rt, p) →
  localStorage p = ls ∧ rootStyle p = style
  ∧ changeListeners p = [] ∧ siteList p = cards.
Proof.
  revert sched rt p.
  cut (∀ sched st,
         run parse_toggle NavbarOnly
             (boot NavbarOnly (host_page ls style nav cards)) sched
         = Some st →
         localStorage st.2 = ls ∧ rootStyle st.2 = style
         ∧ changeListeners st.2 = [] ∧ siteList st.2 = cards).
  { intros Hcut sched rt p Hrun. apply (Hcut _ _ Hrun). }
  apply (run_ind _ _ _ (λ _ st, localStorage st.2 = ls ∧ rootStyle st.2 = style
                               ∧ changeListeners st.2 = []
                               ∧ siteList st.2 = cards)).
  - done.
  - intros sched [[f t c g h] p] e st' _ (Hls & Hst & Hl & Hc) Hstep.
    simpl in *.
    destruct e as [| |d| |checked]; simpl in Hstep.
    + destruct f; by simplify_eq.
    + destruct f; by simplify_eq.
    + destruct f as [|[]|]; try done. destruct t; try done.
      destruct g; by simplify_eq.
    + destruct f as [|[]|]; try done. destruct t; by simplify_eq.
    + destruct (themeToggle p); [|done]. simplify_eq.
      unfold dispatch_change; simpl. by rewrite Hl.
Qed.

(** X7. When the fetched fragment holds no toggle, script.js still injects
    it, but its reaction throws before a listener is attached: the promise
    of the reaction is rejected, the document has no toggle, the theme stays
    the one applied at load, and no further event can happen to the page,
    in particular no change event. *)
Theorem fragment_without_toggle ls style nav cards d sched rt p :
  parse_toggle d = None →
  run parse_toggle ScriptJs (boot ScriptJs (host_page ls style nav cards))
      ([FetchResolved; TextResolved d] ++ sched) = Some (rt, p) →
  sched = []
  ∧ navbar p = d ∧ getNavbar rt = Fulfilled d ∧ thenP rt = Rejected
  ∧ themeToggle p = None ∧ changeListeners p = []
  ∧ localStorage p = localStorage (theme_init (host_page ls style nav cards))
  ∧ rootStyle p = rootStyle (theme_init (host_page ls style nav cards)).
Proof.
  intros Hparse Hrun. unfold run in Hrun; simpl in Hrun.
  unfold on_navbar_script in Hrun; simpl in Hrun. rewrite Hparse in Hrun.
  destruct sched as [|e sched]; simpl in Hrun.
  - by simplify_eq.
  - exfalso. destruct e as [| |d'| |checked]; simpl in Hrun; try done.
    by rewrite Hparse in Hrun.
Qed.

Lemma run_text_resolved v ls style nav cards sched st d :
  run parse_toggle v (boot v (host_page ls style nav cards)) sched = Some st →
  TextResolved d ∈ sched →
  textP st.1 = Fulfilled d ∧ getNavbar st.1 = Fulfilled d.
Proof.
  revert sched st.
  apply (run_ind _ _ _ (λ sched st, TextResolved d ∈ sched →
                                    textP st.1 = Fulfilled d
                                    ∧ getNavbar st.1 = Fulfilled d)).
  - intros Hin. by apply elem_of_nil in Hin.
  - intros sched [[f t c g h] p] e st' Hrun IH Hstep Hin. simpl in *.
    apply run_coherent in Hrun. unfold coherent in Hrun; simpl in Hrun.
    destruct Hrun as (_ & Hf & Ht & _).
    apply elem_of_app in Hin as [Hin|Hin].
    + destruct (IH Hin) as [-> ->].
      destruct e as [| |d'| |checked]; simpl in Hstep.
      * destruct f; by simplify_eq.
      * destruct f; by simplify_eq.
      * by destruct f as [|[]|].
      * by destruct f as [|[]|].
      * destruct (themeToggle p); by simplify_eq.
    + apply list_elem_of_singleton in Hin. subst e. simpl in Hstep.
      destruct f as [|[]|]; try done. destruct t; try done.
      rewrite Ht in Hstep.
      destruct (on_navbar parse_toggle v d p). by simplify_eq.
Qed.

(** X8. Once the body of the fragment has arrived, it stays: in every
    later state of either loader, whatever else happens, [getNavbar] is
    fulfilled with that text and the placeholder holds it; a schedule
    cannot deliver a second, different body. *)
Theorem injected_markup_stays (v : script) ls style nav cards sched st d :
  run parse_toggle v (boot v (host_page ls style nav cards)) sched = Some st →
  TextResolved d ∈ sched →
  navbar st.2 = d ∧ getNavbar st.1 = Fulfilled d
  ∧ (∀ d', TextResolved d' ∈ sched → d' = d).
Proof.
  intros Hrun Hin.
  destruct (run_text_resolved _ _ _ _ _ _ _ _ Hrun Hin) as [Ht Hg].
  split; [|split; [done|]].
  - apply run_coherent in Hrun. destruct st as [[f t c g h] p].
    unfold coherent in Hrun; simpl in *. subst g.
    by destruct Hrun as ((_ & _ & ?) & _).
  - intros d' Hin'.
    destruct (run_text_resolved _ _ _ _ _ _ _ _ Hrun Hin') as [Ht' _].
    congruence.
Qed.

Lemma listeners_write_only_theme checked ls q :
  let q' := foldl (λ q l, run_listener l checked q) q ls in
  (∀ k, k ≠ "theme" → localStorage q' !! k = localStorage q !! k)
  ∧ (∀ k, k ∉ theme_properties → rootStyle q' !! k = rootStyle q !! k).
Proof.
  revert q. induction ls as [|[] ls IH]; intros q; simpl; [done|].
  destruct (IH (on_change checked q)) as [Hls Hst]. split.
  - intros k Hk. rewrite Hls by done. rewrite on_change_unfold.
    rewrite (proj1 (updateTheme_frame _ _)).
    unfold setItem. cbn [localStorage]. by rewrite lookup_insert_ne.
  - intros k Hk. rewrite Hst by done. rewrite on_change_unfold.
    by rewrite updateTheme_others.
Qed.

(** X9. script.js writes nothing but the key theme and the seven theme
    properties: in every state it reaches, every other key of storage and
    every other declaration of the root style are as the page was served,
    and so is the site list. *)
Theorem script_writes_only_theme ls style nav cards sched rt p :
  run parse_toggle ScriptJs (boot ScriptJs (host_page ls style nav cards)) sched
  = Some (rt, p) →
  (∀ k, k ≠ "theme" → localStorage p !! k = ls !! k)
  ∧ (∀ k, k ∉ theme_properties → rootStyle p !! k = style !! k)
  ∧ siteList p = cards.
Proof.
  revert sched rt p.
  cut (∀ sched st,
         run parse_toggle ScriptJs
             (boot ScriptJs (host_page ls style nav cards)) sched = Some st →
         (∀ k, k ≠ "theme" → localStorage st.2 !! k = ls !! k)
         ∧ (∀ k, k ∉ theme_properties → rootStyle st.2 !! k = style !! k)
         ∧ siteList st.2 = cards).
  { intros Hcut sched rt p Hrun. apply (Hcut _ _ Hrun). }
  apply (run_ind _ _ _
           (λ _ st,
              (∀ k, k ≠ "theme" → localStorage st.2 !! k = ls !! k)
              ∧ (∀ k, k ∉ theme_properties → rootStyle st.2 !! k = style !! k)
              ∧ siteList st.2 = cards)).
  - unfold boot. cbn [snd]. split; [|split].
    + intros k Hk. unfold theme_init.
      rewrite (proj1 (updateTheme_frame _ _)).
      destruct (getItem "theme" (host_page ls style nav cards)); [done|].
      unfold setItem. cbn [localStorage]. by rewrite lookup_insert_ne.
    + intros k Hk. unfold theme_init. rewrite updateTheme_others by done.
      by destruct (getItem "theme" (host_page ls style nav cards)).
    + by destruct (theme_init_frame (host_page ls style nav cards))
        as (_&_&_&->).
  - intros sched [[f t c g h] p] e st' _ (Hls & Hst & Hc) Hstep. simpl in *.
    destruct e as [| |d| |checked]; simpl in Hstep.
    + destruct f; by simplify_eq.
    + destruct f; by simplify_eq.
    + destruct f as [|[]|]; try done. destruct t; try done.
      destruct g; simplify_eq; try done.
      unfold on_navbar_script in Hstep; simpl in Hstep.
      destruct (parse_toggle d); by simplify_eq.
    + destruct f as [|[]|]; try done. destruct t; by simplify_eq.
    + destruct (themeToggle p); [|done]. simplify_eq; simpl.
      unfold dispatch_change. cbv zeta.
      pose proof (listeners_write_only_theme checked (changeListeners p)
                    (Page (localStorage p) (rootStyle p) (navbar p)
                          (Some checked) (changeListeners p) (siteList p)))
        as [Hls' Hst'].
      pose proof (listeners_frame checked (changeListeners p)
                    (Page (localStorage p) (rootStyle p) (navbar p)
                          (Some checked) (changeListeners p) (siteList p)))
        as (_ & _ & _ & Hc').
      simpl in *. split; [|split].
      * intros k Hk. rewrite Hls' by done. by apply Hls.
      * intros k Hk. rewrite Hst' by done. by apply Hst.
      * by rewrite Hc'.
Qed.

End LoaderFurther.

(** ** Further runs of the site lister *)

Section ListerFurther.

Variable blob : Type.
Variable createObjectURL : blob → string.

Lemma run_unparsed p0 (sched : list (net_event blob)) st :
  lister_run createObjectURL (getSites p0) sched = Some st →
  (main st.1 ≠ GetSitesReturned → tasks st.1 = [] ∧ st.2 = p0)
  ∧ (SitesFetchFailed ∈ sched ∨ SitesParseFailed ∈ sched →
     main st.1 = GetSitesThrew).
Proof.
  revert sched st.
  apply (exec_ind _ _
           (λ sched st,
              (main st.1 ≠ GetSitesReturned → tasks st.1 = [] ∧ st.2 = p0)
              ∧ (SitesFetchFailed ∈ sched ∨ SitesParseFailed ∈ sched →
                 main st.1 = GetSitesThrew))).
  - split; [done|]. intros [Hin|Hin]; by apply elem_of_nil in Hin.
  - intros sched [[m ts] p] e st' _ [Hpre Hfail] Hstep. simpl in *.
    assert (m = GetSitesReturned ∨ (ts = [] ∧ p = p0)) as Hm.
    { destruct m; try (right; by apply Hpre); by left. }
    destruct e as [| |body| |i|i|i icon|i]; simpl in Hstep;
      try (destruct m; simplify_eq; simpl;
           (split; [naive_solver|]);
           intros [Hin|Hin]; split_mem; naive_solver);
      destruct Hm as [->|[-> ->]]; try done;
      destruct (ts !! i) as [[| | |]|]; simplify_eq; simpl;
      (split; [done|]);
      intros [Hin|Hin]; split_mem; naive_solver.
Qed.

(** X10. When the request for the site list fails, or its body does not
    parse, [getSites] throws before it reaches the container: the page,
    with whatever the container held, is left exactly as it was, and no
    icon is ever requested. *)
Theorem list_failure_keeps_page p0 (sched : list (net_event blob)) rt p :
  lister_run createObjectURL (getSites p0) sched = Some (rt, p) →
  SitesFetchFailed ∈ sched ∨ SitesParseFailed ∈ sched →
  main rt = GetSitesThrew ∧ tasks rt = [] ∧ p = p0.
Proof.
  intros Hrun Hfail. destruct (run_unparsed _ _ _ Hrun) as [Hpre Hthrew].
  simpl in *. specialize (Hthrew Hfail).
  split; [done|]. apply Hpre. by rewrite Hthrew.
Qed.

Lemma run_icon_failed body p0 (sched : list (net_event blob)) st i :
  lister_run createObjectURL (getSites_resume body p0) sched = Some st →
  IconFetchFailed i ∈ sched ∨ IconReadFailed i ∈ sched →
  tasks st.1 !! i = Some TaskFailed.
Proof.
  revert sched st.
  apply (exec_ind _ _
           (λ sched st,
              IconFetchFailed i ∈ sched ∨ IconReadFailed i ∈ sched →
              tasks st.1 !! i = Some TaskFailed)).
  - intros [Hin|Hin]; by apply elem_of_nil in Hin.
  - intros sched [[m ts] p] e st' Hrun IH Hstep Hin. simpl in *.
    apply run_inv in Hrun. destruct Hrun as (Hm & _); simpl in Hm. subst m.
    destruct e as [| |body'| |j|j|j icon|j]; simpl in Hstep; try done;
      destruct (ts !! j) as [[| | |]|] eqn:Hj; simplify_eq; simpl;
      pose proof (lookup_lt_Some _ _ _ Hj) as Hlt;
      (destruct (decide (j = i)) as [->|Hne];
       [|rewrite list_lookup_insert_ne by done; apply IH;
         destruct Hin as [Hin|Hin]; split_mem; naive_solver]);
      try (by apply list_lookup_insert_eq);
      exfalso;
      (assert (ts !! i = Some TaskFailed) as Hfailed
         by (apply IH; destruct Hin as [Hin|Hin]; split_mem; naive_solver));
      congruence.
Qed.

(** X11. A failed icon request costs exactly its own card: when the icon
    fetch or the icon read of the record at position [i] fails, no card for
    that position is ever appended, so the container stays short of N
    cards; [getSites] itself has returned all the same, nothing reports
    the failure to it. *)
Theorem failed_icon_leaves_no_card p0 body (sched : list (net_event blob))
    rt p i :
  list_sites createObjectURL p0 body sched = Some (rt, p) →
  IconFetchFailed i ∈ sched ∨ IconReadFailed i ∈ sched →
  (i ∉ finished sched)
  ∧ (length (siteList p) < length (sites body))%nat
  ∧ main rt = GetSitesReturned
  ∧ ¬ Forall (eq TaskDone) (tasks rt).
Proof.
  intros Hrun Hfail. rewrite list_sites_resume in Hrun.
  pose proof (run_icon_failed _ _ _ _ _ Hrun Hfail) as Hi.
  apply run_inv in Hrun.
  destruct Hrun as (Hm & Hlen & Hts & Hcards & Hnd); simpl in *.
  pose proof (Hts _ _ Hi) as Hfresh; simpl in Hfresh.
  split; [done|]. split; [|split; [done|]].
  - rewrite (Forall2_length _ _ _ Hcards), <- (length_fmap fst).
    change (fst <$> reads sched) with (finished sched).
    assert (i :: finished sched ⊆+ seq 0 (length (sites body))) as Hsub.
    { apply NoDup_submseteq; [by apply NoDup_cons_2|].
      intros k [->|Hk]%elem_of_cons; apply elem_of_seq.
      - apply lookup_lt_Some in Hi. lia.
      - pose proof (finished_in_range _ _ _ _ _ _ Hcards Hk). lia. }
    apply submseteq_length in Hsub. rewrite length_seq in Hsub.
    simpl in Hsub. lia.
  - intros Hdone.
    by pose proof (proj1 (Forall_lookup _ _) Hdone _ _ Hi).
Qed.

Lemma one_by_one_cards body (icon : nat → blob) order :
  (∀ i, i ∈ order → i < length (sites body)) →
  cards_of createObjectURL body
    (omap (λ i, (λ s, card createObjectURL s (icon i)) <$> sites body !! i)
          order)
    ((λ i, (i, icon i)) <$> order).
Proof.
  induction order as [|i order IH]; intros Hrange; simpl; [constructor|].
  destruct (lookup_lt_is_Some_2 (sites body) i) as [s Hs];
    [apply Hrange; by left|].
  rewrite Hs. simpl. constructor.
  - by exists s.
  - apply IH. intros k Hk. apply Hrange. by right.
Qed.

(** X12. Every order of the cards can occur: for each arrangement of the
    N positions there is a schedule of icon completions that runs every
    callback to its end and leaves the cards in exactly that arrangement. *)
Theorem any_card_order_is_reachable p0 body (icon : nat → blob) order :
  order ≡ₚ seq 0 (length (sites body)) →
  ∃ sched rt p,
    list_sites createObjectURL p0 body sched = Some (rt, p)
    ∧ Forall (eq TaskDone) (tasks rt)
    ∧ cards_of createObjectURL body (siteList p) ((λ i, (i, icon i)) <$> order).
Proof.
  intros Hperm.
  assert (∀ k, k ∈ order ↔ k < length (sites body)) as Hrange.
  { intros k. rewrite Hperm, elem_of_seq. lia. }
  destruct (one_by_one_completes _ createObjectURL p0 body icon order)
    as (rt & p & Hrun & Hdone & Hcs); [|done|].
  { rewrite Hperm. apply NoDup_seq. }
  exists (one_by_one icon order), rt, p.
  split; [done|]. split; [done|]. rewrite Hcs.
  apply one_by_one_cards. intros k. apply Hrange.
Qed.

Lemma cards_in_record_order body l cs (order : list (nat * blob)) j :
  cards_of createObjectURL body cs order →
  fst <$> order = seq j (length l) →
  (∀ i, l !! i = sites body !! (j + i)) →
  cs = zip_with (card createObjectURL) l (snd <$> order).
Proof.
  revert cs order j.
  induction l as [|x l IH]; intros cs order j Hcards Hfst Hl; simpl in *.
  - destruct order; [|done]. by inversion Hcards.
  - destruct order as [|[k icon] order]; [done|]. simpl in Hfst.
    injection Hfst as -> Hfst.
    inversion Hcards as [|c ib cs' order' (s & Hs & ->) Hrest]; subst.
    simpl in *. pose proof (Hl 0) as Hx. simpl in Hx.
    rewrite Nat.add_0_r, Hs in Hx. simplify_eq. f_equal.
    apply (IH _ _ (S j)); [done|done|].
    intros i. specialize (Hl (S i)). simpl in Hl. rewrite Hl.
    f_equal. lia.
Qed.

(** X13. When the icon reads complete in the order of the records, the
    cards are in the order of the records: the container is the list of
    the records' cards, first record first. *)
Theorem reads_in_order_give_cards_in_order p0 body
    (sched : list (net_event blob)) rt p :
  list_sites createObjectURL p0 body sched = Some (rt, p) →
  finished sched = seq 0 (length (sites body)) →
  in_order createObjectURL body (siteList p)
  ∧ length (siteList p) = length (sites body).
Proof.
  intros Hrun Hfin. rewrite list_sites_resume in Hrun. apply run_inv in Hrun.
  destruct Hrun as (_ & _ & _ & Hcards & _); simpl in *.
  split.
  - exists (snd <$> reads sched).
    by apply (cards_in_record_order body (sites body) _ _ 0).
  - rewrite (Forall2_length _ _ _ Hcards), <- (length_fmap fst).
    change (fst <$> reads sched) with (finished sched).
    by rewrite Hfin, length_seq.
Qed.


(** X15. The site lister writes nothing but the container: in every state
    it reaches, storage, the root style, the navbar markup, the toggle and
    its listeners are as the page was served. *)
Theorem lister_touches_only_container p0 (sched : list (net_event blob))
    rt p :
  lister_run createObjectURL (getSites p0) sched = Some (rt, p) →
  localStorage p = localStorage p0 ∧ rootStyle p = rootStyle p0
  ∧ navbar p = navbar p0 ∧ themeToggle p = themeToggle p0
  ∧ changeListeners p = changeListeners p0.
Proof.
  revert sched rt p.
  cut (∀ sched st,
         lister_run createObjectURL (getSites p0) sched = Some st →
         localStorage st.2 = localStorage p0 ∧ rootStyle st.2 = rootStyle p0
         ∧ navbar st.2 = navbar p0 ∧ themeToggle st.2 = themeToggle p0
         ∧ changeListeners st.2 = changeListeners p0).
  { intros Hcut sched rt p Hrun. apply (Hcut _ _ Hrun). }
  apply (exec_ind _ _
           (λ _ st,
              localStorage st.2 = localStorage p0
              ∧ rootStyle st.2 = rootStyle p0
              ∧ navbar st.2 = navbar p0 ∧ themeToggle st.2 = themeToggle p0
              ∧ changeListeners st.2 = changeListeners p0)).
  - done.
  - intros sched [[m ts] p] e st' _ IH Hstep. simpl in *.
    destruct e as [| |body| |i|i|i icon|i]; simpl in Hstep;
      try (destruct m; by simplify_eq);
      destruct (ts !! i) as [[| | |]|]; by simplify_eq.
Qed.

End ListerFurther.

(** ** The further properties on concrete pages *)

(** Light was stored: the injected toggle comes up checked. *)
Lemma toggle_reflects_stored_theme_witness :
  ∃ rt p,
    run with_toggle ScriptJs
        (boot ScriptJs (host_page {[ "theme" := "light" ]} ∅ "" []))
        [FetchResolved; TextResolved "<nav>"] = Some (rt, p)
    ∧ themeToggle p = Some true
    ∧ toggle_shows_stored p.
Proof.
  eexists _, _. split; [reflexivity|]. split; [reflexivity|].
  eapply (toggle_reflects_stored_theme with_toggle {[ "theme" := "light" ]}
            ∅ "" [] [FetchResolved; TextResolved "<nav>"]).
  reflexivity.
Defined.

(** The user picks light; the next load starts from it. *)
Lemma preference_survives_reload_witness :
  ∃ rt p rt' p',
    run with_toggle ScriptJs (boot ScriptJs (host_page ∅ ∅ "" []))
        ([FetchResolved; TextResolved "<nav>"] ++ [Change true])
    = Some (rt, p)
    ∧ is_Some (with_toggle "<nav>")
    ∧ run with_toggle ScriptJs
          (boot ScriptJs (host_page (localStorage p) ∅ "" []))
          [FetchResolved; TextResolved "<nav>"] = Some (rt', p')
    ∧ getItem "theme" p' = Some "light"
    ∧ references "light" p'
    ∧ themeToggle p' = Some true.
Proof.
  eexists _, _, _, _. split; [reflexivity|].
  split; [by eexists|]. split; [reflexivity|].
  eapply (preference_survives_reload with_toggle ∅ ∅ "" []
            [FetchResolved; TextResolved "<nav>"] true _ _ ∅ "" [] "<nav>");
    [reflexivity|by eexists|reflexivity].
Defined.

(** The body of the fragment cannot be read. *)
Lemma body_read_failure_never_settles_witness :
  ∃ st,
    run with_toggle NavbarOnly (boot NavbarOnly (host_page ∅ ∅ "" []))
        [FetchResolved; TextRejected] = Some st
    ∧ TextRejected ∈ [FetchResolved; TextRejected]
    ∧ getNavbar st.1 = Pending ∧ thenP st.1 = Pending
    ∧ navbar st.2 = ""
    ∧ themeToggle st.2 = None ∧ changeListeners st.2 = [].
Proof.
  assert (TextRejected ∈ [FetchResolved; TextRejected]) as Hin
    by (right; left).
  eexists. split; [reflexivity|]. split; [exact Hin|].
  eapply (body_read_failure_never_settles with_toggle NavbarOnly ∅ ∅ "" []
            [FetchResolved; TextRejected]);
    [reflexivity|exact Hin].
Defined.

(** On a page with only the stand-alone loader, flipping the toggle stores
    nothing. *)
Lemma standalone_loader_frame_witness :
  ∃ rt p,
    run with_toggle NavbarOnly (boot NavbarOnly (host_page ∅ ∅ "" []))
        [FetchResolved; TextResolved "<nav>"; Change true] = Some (rt, p)
    ∧ localStorage p = ∅ ∧ rootStyle p = ∅
    ∧ changeListeners p = [] ∧ siteList p = [].
Proof.
  eexists _, _. split; [reflexivity|].
  eapply (standalone_loader_frame with_toggle ∅ ∅ "" []
            [FetchResolved; TextResolved "<nav>"; Change true]).
  reflexivity.
Defined.

(** A fragment without the toggle. *)
Lemma fragment_without_toggle_witness :
  ∃ rt p,
    without_toggle "<ul></ul>" = None
    ∧ run without_toggle ScriptJs (boot ScriptJs (host_page ∅ ∅ "" []))
          ([FetchResolved; TextResolved "<ul></ul>"] ++ []) = Some (rt, p)
    ∧ navbar p = "<ul></ul>" ∧ thenP rt = Rejected
    ∧ themeToggle p = None ∧ changeListeners p = [].
Proof.
  eexists _, _. split; [reflexivity|]. split; [reflexivity|].
  pose proof (fragment_without_toggle without_toggle ∅ ∅ "" [] "<ul></ul>"
                [] _ _ eq_refl eq_refl) as (_ & Hn & _ & Hthen & Ht & Hl & _).
  exact (conj Hn (conj Hthen (conj Ht Hl))).
Defined.

(** The markup stays through a change event. *)
Lemma injected_markup_stays_witness :
  ∃ st,
    run with_toggle ScriptJs (boot ScriptJs (host_page ∅ ∅ "" []))
        [FetchResolved; TextResolved "<nav>"; Change true] = Some st
    ∧ TextResolved "<nav>"
      ∈ [FetchResolved; TextResolved "<nav>"; Change true]
    ∧ navbar st.2 = "<nav>" ∧ getNavbar st.1 = Fulfilled "<nav>".
Proof.
  assert (TextResolved "<nav>"
          ∈ [FetchResolved; TextResolved "<nav>"; Change true]) as Hin
    by (right; left).
  eexists. split; [reflexivity|]. split; [exact Hin|].
  pose proof (injected_markup_stays with_toggle ScriptJs ∅ ∅ "" []
                [FetchResolved; TextResolved "<nav>"; Change true] _ "<nav>"
                eq_refl Hin) as (Hn & Hg & _).
  exact (conj Hn Hg).
Defined.

(** Another key of storage is left alone. *)
Lemma script_writes_only_theme_witness :
  ∃ rt p,
    run with_toggle ScriptJs
        (boot ScriptJs (host_page {[ "visits" := "3" ]} ∅ "" []))
        [FetchResolved; TextResolved "<nav>"; Change true] = Some (rt, p)
    ∧ localStorage p !! "visits" = Some "3"
    ∧ getItem "theme" p = Some "light".
Proof.
  eexists _, _. split; [reflexivity|].
  pose proof (script_writes_only_theme with_toggle {[ "visits" := "3" ]}
                ∅ "" [] [FetchResolved; TextResolved "<nav>"; Change true]
                _ _ eq_refl) as (Hls & _).
  split; [|reflexivity].
  rewrite (Hls "visits") by discriminate. reflexivity.
Defined.

(** The list does not parse: the old child of the container stays. *)
Lemma list_failure_keeps_page_witness :
  ∃ rt p,
    lister_run blob_url (getSites (host_page ∅ ∅ "" [createElement "p"]))
      [SitesFetched; SitesParseFailed] = Some (rt, p)
    ∧ main rt = GetSitesThrew ∧ tasks rt = []
    ∧ p = host_page ∅ ∅ "" [createElement "p"].
Proof.
  eexists _, _. split; [reflexivity|].
  eapply (list_failure_keeps_page string blob_url
            (host_page ∅ ∅ "" [createElement "p"])
            [SitesFetched; SitesParseFailed]);
    [reflexivity|].
  right. right. left.
Defined.

(** The second icon cannot be fetched: one card, for the first record. *)
Lemma failed_icon_leaves_no_card_witness :
  ∃ rt p,
    list_sites blob_url (host_page ∅ ∅ "" []) two_sites
      [IconFetched 0; IconFetchFailed 1; IconRead 0 "i0"] = Some (rt, p)
    ∧ length (siteList p) = 1
    ∧ (1 ∉ finished [IconFetched 0; IconFetchFailed 1; IconRead 0 "i0"])
    ∧ (length (siteList p) < length (sites two_sites))%nat
    ∧ main rt = GetSitesReturned
    ∧ ¬ Forall (eq TaskDone) (tasks rt).
Proof.
  eexists _, _. split; [reflexivity|]. split; [reflexivity|].
  eapply (failed_icon_leaves_no_card string blob_url (host_page ∅ ∅ "" [])
            two_sites [IconFetched 0; IconFetchFailed 1; IconRead 0 "i0"]
            _ _ 1);
    [reflexivity|].
  left. right. left.
Defined.

(** The two cards, second record first. *)
Lemma any_card_order_is_reachable_witness :
  [1; 0] ≡ₚ seq 0 (length (sites two_sites))
  ∧ ∃ sched rt p,
      list_sites blob_url (host_page ∅ ∅ "" []) two_sites sched
      = Some (rt, p)
      ∧ Forall (eq TaskDone) (tasks rt)
      ∧ cards_of blob_url two_sites (siteList p)
          ((λ i, (i, "icon")) <$> [1; 0]).
Proof.
  assert ([1; 0] ≡ₚ seq 0 (length (sites two_sites))) as Hperm
    by apply perm_swap.
  split; [exact Hperm|].
  exact (any_card_order_is_reachable string blob_url (host_page ∅ ∅ "" [])
           two_sites (λ _, "icon") [1; 0] Hperm).
Defined.

(** Fetches complete out of order, reads in order: cards in order. *)
Lemma reads_in_order_give_cards_in_order_witness :
  ∃ rt p,
    list_sites blob_url (host_page ∅ ∅ "" []) two_sites
      [IconFetched 1; IconFetched 0; IconRead 0 "i0"; IconRead 1 "i1"]
    = Some (rt, p)
    ∧ finished [IconFetched 1; IconFetched 0; IconRead 0 "i0";
                IconRead 1 "i1"]
      = seq 0 (length (sites two_sites))
    ∧ in_order blob_url two_sites (siteList p)
    ∧ length (siteList p) = length (sites two_sites).
Proof.
  eexists _, _. split; [reflexivity|]. split; [reflexivity|].
  eapply (reads_in_order_give_cards_in_order string blob_url
            (host_page ∅ ∅ "" []) two_sites
            [IconFetched 1; IconFetched 0; IconRead 0 "i0"; IconRead 1 "i1"]);
    reflexivity.
Defined.


(** The lister runs on a page with a stored preference. *)
Lemma lister_touches_only_container_witness :
  ∃ rt p,
    lister_run blob_url
      (getSites (host_page {[ "theme" := "light" ]} ∅ "<nav>" []))
      [SitesFetched; SitesParsed two_sites; IconFetched 0; IconRead 0 "i0"]
    = Some (rt, p)
    ∧ length (siteList p) = 1
    ∧ localStorage p = {[ "theme" := "light" ]} ∧ rootStyle p = ∅
    ∧ navbar p = "<nav>" ∧ themeToggle p = None
    ∧ changeListeners p = [].
Proof.
  eexists _, _. split; [reflexivity|]. split; [reflexivity|].
  exact (lister_touches_only_container string blob_url
           (host_page {[ "theme" := "light" ]} ∅ "<nav>" [])
           [SitesFetched; SitesParsed two_sites; IconFetched 0;
            IconRead 0 "i0"] _ _ eq_refl).
Defined.
